(** * nlp-examples.py: the word-frequency counter, the custom sentence
      boundary rule and the pipeline loader

    The script is a sequence of calls into spaCy and [collections.Counter].
    The parts that are the script's own are embedded here:
    - [set_custom_boundaries] (lines 59-65), a pipeline component that
      mutates the document it is given;
    - the word list, the frequency table and the two queries on it
      (lines 201-213);
    - the guarded load of the pipeline (lines 8-14) and the later loads
      bound to [custom_nlp] (lines 75-76, 120, 132).

    Library objects are modelled to the extent the script uses them: a
    [Doc] is an array of token structs, a [Token] is a view (document,
    index) on it, a [Counter] is a dict in insertion order. *)

From Stdlib Require Import List Arith Lia Bool.
From stdpp Require Import base list strings gmap sorting.

Local Open Scope string_scope.
Local Open Scope list_scope.
Local Open Scope nat_scope.

(** ** Python results, exceptions and a state monad with exceptions *)

Module Py.

(** The exception classes that the modelled statements can meet. *)
Inductive exn_class : Type :=
| OSError | FileNotFoundError | PermissionError
| ImportError | ModuleNotFoundError
| IndexError | ValueError | ReferenceError
| MemoryError | KeyboardInterrupt | SystemExit.

#[global] Instance exn_class_eq_dec : EqDecision exn_class.
Proof. solve_decision. Defined.

(** Direct base class inside the fragment of the hierarchy above. *)
Definition base (c : exn_class) : option exn_class :=
  match c with
  | FileNotFoundError | PermissionError => Some OSError
  | ModuleNotFoundError => Some ImportError
  | _ => None
  end.

(** [issubclass c d]: an exception of class [c] is caught by
    [except d]. *)
Definition issubclass (c d : exn_class) : bool :=
  bool_decide (c = d) ||
  match base c with
  | Some p => bool_decide (p = d)
  | None => false
  end.

Inductive result (A : Type) : Type :=
| Ok (a : A)
| Raise (e : exn_class).
Arguments Ok {A} a.
Arguments Raise {A} e.

(** A statement runs on a state and leaves a state behind, also when it
    raises: effects that happened before the exception stay. *)
Definition M (S A : Type) : Type := S -> result A * S.

Definition ret {S A} (a : A) : M S A := fun s => (Ok a, s).

Definition bind {S A B} (m : M S A) (k : A -> M S B) : M S B :=
  fun s =>
    match m s with
    | (Ok a, s') => k a s'
    | (Raise e, s') => (Raise e, s')
    end.

Definition modify {S} (f : S -> S) : M S unit := fun s => (Ok tt, f s).

(** [try: body except cls: handler] *)
Definition try_except {S A} (body : M S A) (cls : exn_class)
    (handler : M S A) : M S A :=
  fun s =>
    match body s with
    | (Ok a, s') => (Ok a, s')
    | (Raise e, s') =>
        if issubclass e cls then handler s' else (Raise e, s')
    end.

(** [for x in xs: body x] *)
Fixpoint for_each {S A} (xs : list A) (body : A -> M S unit) : M S unit :=
  match xs with
  | [] => ret tt
  | x :: rest => bind (body x) (fun _ => for_each rest body)
  end.

End Py.

Import Py.

Notation "x <- m ;; k" := (bind m (fun x => k))
  (at level 100, m at next level, right associativity).
Notation "m ;;; k" := (bind m (fun _ => k))
  (at level 100, right associativity).

(** ** spaCy's documents and tokens *)

Module Spacy.

(** A vocabulary entry: the lexical flags of one word form. *)
Record LexemeC : Type := mkLexemeC {
  lex_is_alpha : bool;
  lex_is_punct : bool;
  lex_is_stop : bool
}.

(** The vocabulary, shared by every token of a document: one entry per
    verbatim text. In spaCy [is_alpha], [is_punct] and [is_stop] are
    lexical attributes: the token struct points to the vocabulary entry of
    its text and [token.is_stop] reads the flag of that entry, so the
    tokens that have one text have one set of flags. *)
Definition Vocab : Type := string -> LexemeC.

(** The per-token struct of a document. [dep] is the dependency label
    that the parser sets, 0 while the token has none. [sent_start] is the
    tri-state behind [is_sent_start]: [None], [Some true] or
    [Some false]. *)
Record TokenC : Type := mkTokenC {
  orth : string;
  idx : nat;
  whitespace : string;
  tag_ : string;
  pos_ : string;
  lemma_ : string;
  dep : nat;
  sent_start : option bool
}.

Definition with_sent_start (v : option bool) (t : TokenC) : TokenC :=
  {| orth := orth t; idx := idx t; whitespace := whitespace t;
     tag_ := tag_ t; pos_ := pos_ t; lemma_ := lemma_ t; dep := dep t;
     sent_start := v |}.

(** [doc.has_annotation("DEP")]: the document has a dependency parse. An
    empty document counts as annotated; otherwise some token has a
    dependency label. *)
Definition has_annotation_dep (c : list TokenC) : bool :=
  match c with
  | [] => true
  | _ => existsb (fun t => negb (dep t =? 0)%nat) c
  end.

(** A document object is known by its reference. *)
Definition ref : Type := nat.

(** What a token access does to a document. *)
Inductive access : Type :=
| Visit (d : ref) (i : nat)          (* the token [d[i]] was obtained *)
| ReadText (d : ref) (i : nat)       (* [.text] of token [i] was read *)
| SetSentStart (d : ref) (i : nat).  (* [.is_sent_start] of token [i] was assigned *)

(** The store: the live documents and the accesses so far (newest
    first). *)
Record heap : Type := mkHeap {
  docs : gmap ref (list TokenC);
  accesses : list access
}.

Definition note (a : access) (h : heap) : heap :=
  {| docs := docs h; accesses := a :: accesses h |}.

Definition store_doc (d : ref) (c : list TokenC) (h : heap) : heap :=
  {| docs := <[d := c]> (docs h); accesses := accesses h |}.

(** A token is a view: the document and the index in it. *)
Record Token : Type := mkToken { tok_doc : ref; i : nat }.

(** [len(doc)] *)
Definition doc_len (d : ref) : M heap nat :=
  fun h =>
    match docs h !! d with
    | Some c => (Ok (length c), h)
    | None => (Raise ReferenceError, h)
    end.

(** [doc[k]] for a non-negative [k]: [IndexError] out of range. *)
Definition doc_getitem (d : ref) (k : nat) : M heap Token :=
  fun h =>
    match docs h !! d with
    | Some c =>
        if decide (k < length c)
        then (Ok {| tok_doc := d; i := k |}, note (Visit d k) h)
        else (Raise IndexError, h)
    | None => (Raise ReferenceError, h)
    end.

(** [token.text] *)
Definition token_text (t : Token) : M heap string :=
  fun h =>
    match docs h !! tok_doc t with
    | Some c =>
        match c !! i t with
        | Some tc => (Ok (orth tc), note (ReadText (tok_doc t) (i t)) h)
        | None => (Raise IndexError, h)
        end
    | None => (Raise ReferenceError, h)
    end.

(** [token.is_sent_start = v]: the setter refuses with [ValueError] when
    the document has a dependency parse, and assigns otherwise. *)
Definition token_set_is_sent_start (t : Token) (v : bool) : M heap unit :=
  fun h =>
    match docs h !! tok_doc t with
    | Some c =>
        if has_annotation_dep c then (Raise ValueError, h)
        else
          match c !! i t with
          | Some tc =>
              (Ok tt,
               note (SetSentStart (tok_doc t) (i t))
                 (store_doc (tok_doc t)
                    (<[i t := with_sent_start (Some v) tc]> c) h))
          | None => (Raise IndexError, h)
          end
    | None => (Raise ReferenceError, h)
    end.

(** [doc[:-1]]: the span from 0 to [len - 1], empty when the document
    has at most one token; iterating it yields [doc[k]] for each [k] of
    the span in turn. *)
Definition span_all_but_last (d : ref) : M heap (list nat) :=
  n <- doc_len d ;; ret (seq 0 (n - 1)).

(** Lexical flags of a token struct, through the vocabulary. *)
Definition is_alpha (v : Vocab) (t : TokenC) : bool := lex_is_alpha (v (orth t)).
Definition is_punct (v : Vocab) (t : TokenC) : bool := lex_is_punct (v (orth t)).
Definition is_stop (v : Vocab) (t : TokenC) : bool := lex_is_stop (v (orth t)).
Definition text (t : TokenC) : string := orth t.
Definition is_sent_start (t : TokenC) : option bool := sent_start t.

End Spacy.

Import Spacy.

(** ** Lines 59-65: the custom sentence-boundary component *)

(** The body of the loop, for the token at index [k] of the span:
    [[
            if token.text == "...":
                doc[token.i + 1].is_sent_start = True
    ]] *)
Definition set_custom_boundaries_body (doc : ref) (k : nat) : M heap unit :=
  token <- doc_getitem doc k ;;
  txt <- token_text token ;;
  if String.eqb txt "..."
  then (next <- doc_getitem doc (i token + 1) ;;
        token_set_is_sent_start next true)
  else ret tt.

(** [[
    def set_custom_boundaries(doc):
        for token in doc[:-1]:
            ...
        return doc
    ]] *)
Definition set_custom_boundaries (doc : ref) : M heap ref :=
  span <- span_all_but_last doc ;;
  for_each span (set_custom_boundaries_body doc) ;;;
  ret doc.

(** What the component is expected to do, in terms of the token array. *)

(** The token array after the body of the loop ran for index [k], on a
    document without a dependency parse. *)
Definition body_tokens (k : nat) (c : list TokenC) : list TokenC :=
  match c !! k, c !! (k + 1) with
  | Some tk, Some tn =>
      if String.eqb (orth tk) "..."
      then <[k + 1 := with_sent_start (Some true) tn]> c
      else c
  | _, _ => c
  end.

(** Token [j] follows a token whose text is the delimiter. *)
Definition follows_delimiter (c : list TokenC) (j : nat) : bool :=
  match j with
  | 0 => false
  | S p =>
      match c !! p with
      | Some t => String.eqb (text t) "..."
      | None => false
      end
  end.

(** An access stays inside a document [d] of [n] tokens: a token is
    obtained or assigned at an index below [n], and a text is read only
    at an index that has a successor. *)
Definition in_range (d : ref) (n : nat) (a : access) : Prop :=
  match a with
  | Visit d' j | SetSentStart d' j => d' = d ∧ j < n
  | ReadText d' j => d' = d ∧ j + 1 < n
  end.


(** Some token before the last one is a delimiter: the loop reaches the
    assignment. *)
Definition delimiter_before_last (c : list TokenC) : bool :=
  existsb (fun t => String.eqb (text t) "...") (take (length c - 1) c).

(** What a call of the component gives on a document with tokens [c]: the
    assignment raises when it is reached on a parsed document. *)
Definition outcome (doc : ref) (c : list TokenC) : result ref :=
  if has_annotation_dep c && delimiter_before_last c
  then Raise ValueError
  else Ok doc.

(** ** [collections.Counter] on strings *)

Module Collections.

(** A dict from [str] to [int], as the list of its items in insertion
    order. *)
Definition dict : Type := list (string * nat).

(** [d.get(k)] *)
Fixpoint dict_get (d : dict) (k : string) : option nat :=
  match d with
  | [] => None
  | (k', v) :: d' => if decide (k' = k) then Some v else dict_get d' k
  end.

(** [d[k] = v]: a key that is present keeps its place, a new key goes
    last. *)
Fixpoint dict_setitem (d : dict) (k : string) (v : nat) : dict :=
  match d with
  | [] => [(k, v)]
  | (k', v') :: d' =>
      if decide (k' = k) then (k', v) :: d'
      else (k', v') :: dict_setitem d' k v
  end.

(** One step of the counting loop: [self[elem] = self.get(elem, 0) + 1] *)
Definition count_element (self : dict) (elem : string) : dict :=
  dict_setitem self elem (default 0 (dict_get self elem) + 1).

(** [Counter(iterable)] *)
Definition Counter (iterable : list string) : dict :=
  fold_left count_element iterable [].

(** [c[k]]: a missing key counts 0. *)
Definition counter_getitem (c : dict) (k : string) : nat :=
  default 0 (dict_get c k).

(** [d.items()], [d.keys()] and [d.values()] *)
Definition items (d : dict) : list (string * nat) := d.
Definition keys (d : dict) : list string := map fst d.
Definition values (d : dict) : list nat := map snd d.

(** [sorted(xs, key=itemgetter(1), reverse=True)]: descending by count;
    the sort is stable, so items with equal counts keep the order they
    have in [xs]. *)
Fixpoint insert_desc (x : string * nat) (s : list (string * nat))
    : list (string * nat) :=
  match s with
  | [] => [x]
  | y :: s' =>
      if (snd y <=? snd x)%nat then x :: y :: s' else y :: insert_desc x s'
  end.

Fixpoint sorted_desc (xs : list (string * nat)) : list (string * nat) :=
  match xs with
  | [] => []
  | x :: xs' => insert_desc x (sorted_desc xs')
  end.

(** [c.most_common(n)] is [heapq.nlargest(n, c.items(), key=itemgetter(1))],
    which is [sorted(c.items(), key=itemgetter(1), reverse=True)[:n]]. *)
Definition most_common (n : nat) (c : dict) : list (string * nat) :=
  take n (sorted_desc (items c)).

End Collections.

Import Collections.

(** ** Lines 199-213: the word list and the frequency table *)

(** [[
    words = [
        token.text
        for token in complete_doc
        if not token.is_stop and not token.is_punct
    ]
    ]] *)
Definition words (v : Vocab) (complete_doc : list TokenC) : list string :=
  map text
    (List.filter (fun token => negb (is_stop v token) && negb (is_punct v token))
       complete_doc).

(** [word_freq = Counter(words)] *)
Definition word_freq (words : list string) : dict := Counter words.

(** [common_words = word_freq.most_common(5)] *)
Definition common_words (word_freq : dict) : list (string * nat) :=
  most_common 5 word_freq.

(** [unique_words = [word for (word, freq) in word_freq.items() if freq == 1]] *)
Definition unique_words (word_freq : dict) : list string :=
  map fst (List.filter (fun '(word, freq) => (freq =? 1)%nat) (items word_freq)).

(** Position of the first occurrence of [w] in [l] ([length l] when there
    is none): the rank by which a word is first seen. *)
Fixpoint first_seen (w : string) (l : list string) : nat :=
  match l with
  | [] => 0
  | x :: l' => if decide (x = w) then 0 else S (first_seen w l')
  end.

(** Number of occurrences of [w] in [l]. *)
Definition occurrences (w : string) (l : list string) : nat :=
  count_occ String.string_dec l w.

(** The order of the answer of a descending stable sort, given the order
    [before] of the items in the list that is sorted: a larger count
    first, and for equal counts the item that came first. *)
Definition desc_then_before (before : relation (string * nat))
    : relation (string * nat) :=
  fun a b => snd b < snd a ∨ (snd a = snd b ∧ before a b).

(** The order of the top-K answer with respect to a sequence of words: by
    descending count, and for equal counts by first occurrence. *)
Definition ranks_before (token_texts : list string) : relation (string * nat) :=
  desc_then_before
    (fun a b => first_seen (fst a) token_texts < first_seen (fst b) token_texts).

(** ** The pipeline objects of the script *)

Module Script.

(** Calls that leave the process. *)
Inductive event : Type :=
| SpacyLoad (name : string)      (* [spacy.load(name)] *)
| ImportDownload                 (* [from spacy.cli import download] *)
| Download (name : string)       (* [download(name)] *)
| Statements (line : nat).       (* the statements from [line] up to the
                                    next pipeline statement *)

(** A loaded pipeline ([spacy.Language]): the names of its components
    and whether its tokenizer was replaced. *)
Record Language : Type := mkLanguage {
  pipe_names : list string;
  tokenizer_replaced : bool
}.

(** The pipeline that [spacy.load("en_core_web_sm")] builds. *)
Definition en_core_web_sm : Language :=
  {| pipe_names :=
       ["tok2vec"; "tagger"; "parser"; "attribute_ruler"; "lemmatizer"; "ner"];
     tokenizer_replaced := false |}.

(** The surroundings decide, from the calls made so far, whether the
    next call raises and what. *)
Record Env : Type := mkEnv {
  load_raises : list event -> option exn_class;
  import_raises : list event -> option exn_class;
  download_raises : list event -> option exn_class;
  statements_raise : list event -> option exn_class
}.

(** The state of the run: the calls made (oldest first), the pipeline
    objects created (an object is known by its position) and the module
    globals that are bound to a pipeline object. *)
Record world : Type := mkWorld {
  events : list event;
  objects : list Language;
  globals : gmap string nat
}.

Definition initial : world :=
  {| events := []; objects := []; globals := ∅ |}.

Definition record (e : event) (w : world) : world :=
  {| events := events w ++ [e]; objects := objects w; globals := globals w |}.

Definition external (e : event) (raises : list event -> option exn_class)
    : M world unit :=
  fun w =>
    match raises (events w) with
    | Some x => (Raise x, record e w)
    | None => (Ok tt, record e w)
    end.

Section WithEnv.
Variable env : Env.

(** [spacy.load(name)]: a new pipeline object on every call that
    returns. *)
Definition spacy_load (name : string) : M world nat :=
  external (SpacyLoad name) (load_raises env) ;;;
  fun w =>
    (Ok (length (objects w)),
     {| events := events w; objects := objects w ++ [en_core_web_sm];
        globals := globals w |}).

Definition import_download : M world unit :=
  external ImportDownload (import_raises env).

Definition download (name : string) : M world unit :=
  external (Download name) (download_raises env).

(** [name = obj] at module level. *)
Definition assign (name : string) (obj : nat) : M world unit :=
  modify (fun w =>
    {| events := events w; objects := objects w;
       globals := <[name := obj]> (globals w) |}).

(** Read of a module global: [NameError] cannot happen where the
    script reads one, the unbound case is kept as [ReferenceError]. *)
Definition global (name : string) : M world nat :=
  fun w =>
    match globals w !! name with
    | Some obj => (Ok obj, w)
    | None => (Raise ReferenceError, w)
    end.

(** In-place update of a pipeline object. *)
Definition update_object (obj : nat) (f : Language -> Language)
    : M world unit :=
  fun w =>
    match objects w !! obj with
    | Some l =>
        (Ok tt,
         {| events := events w; objects := <[obj := f l]> (objects w);
            globals := globals w |})
    | None => (Raise ReferenceError, w)
    end.

(** Lines 8-14:
    [[
    try:
        nlp = spacy.load("en_core_web_sm")
    except OSError:
        from spacy.cli import download

        download("en_core_web_sm")
        nlp = spacy.load("en_core_web_sm")
    ]] *)
Definition load_nlp : M world unit :=
  try_except
    (obj <- spacy_load "en_core_web_sm" ;; assign "nlp" obj)
    OSError
    (import_download ;;;
     download "en_core_web_sm" ;;;
     obj <- spacy_load "en_core_web_sm" ;; assign "nlp" obj).

(** Lines 75 and 120: [custom_nlp = spacy.load("en_core_web_sm")] *)
Definition load_custom_nlp : M world unit :=
  obj <- spacy_load "en_core_web_sm" ;; assign "custom_nlp" obj.

(** [add_pipe(name, before=b)] on a list of component names;
    [ValueError] when [b] is not a component. *)
Fixpoint insert_before (name b : string) (l : list string)
    : option (list string) :=
  match l with
  | [] => None
  | x :: l' =>
      if decide (x = b) then Some (name :: x :: l')
      else option_map (cons x) (insert_before name b l')
  end.

(** Line 76:
    [custom_nlp.add_pipe("set_custom_boundaries", before="parser")] *)
Definition add_custom_boundaries : M world unit :=
  obj <- global "custom_nlp" ;;
  fun w =>
    match objects w !! obj with
    | Some l =>
        match insert_before "set_custom_boundaries" "parser" (pipe_names l) with
        | Some names =>
            update_object obj
              (fun l => {| pipe_names := names;
                           tokenizer_replaced := tokenizer_replaced l |}) w
        | None => (Raise ValueError, w)
        end
    | None => (Raise ReferenceError, w)
    end.

(** Lines 132-138: [custom_nlp.tokenizer = Tokenizer(nlp.vocab, ...)] *)
Definition replace_tokenizer : M world unit :=
  obj <- global "custom_nlp" ;;
  _ <- global "nlp" ;;
  update_object obj
    (fun l => {| pipe_names := pipe_names l; tokenizer_replaced := true |}).

(** The statements between two pipeline statements: they call into
    the pipelines and print, may raise, and bind no pipeline object. *)
Definition statements (line : nat) : M world unit :=
  external (Statements line) (statements_raise env).

(** The script, statement by statement, as far as pipeline objects
    are concerned. *)
Definition script : list (M world unit) :=
  [ load_nlp;               (* lines 8-14 *)
    statements 16;          (* lines 16-72 *)
    load_custom_nlp;        (* line 75 *)
    add_custom_boundaries;  (* line 76 *)
    statements 77;          (* lines 77-118 *)
    load_custom_nlp;        (* line 120 *)
    statements 121;         (* lines 121-130 *)
    replace_tokenizer;      (* lines 132-138 *)
    statements 140 ].       (* lines 140-233 *)

End WithEnv.

(** Surroundings in which every call returns. *)
Definition all_calls_return : Env :=
  {| load_raises := fun _ => None; import_raises := fun _ => None;
     download_raises := fun _ => None; statements_raise := fun _ => None |}.

(** The states after each statement of a program, up to and including
    the state a raising statement leaves. *)
Fixpoint run (prog : list (M world unit)) (w : world) : list world :=
  match prog with
  | [] => []
  | stmt :: rest =>
      match stmt w with
      | (Ok _, w') => w' :: run rest w'
      | (Raise _, w') => [w']
      end
  end.

(** The pipeline objects that a global holds, each once. *)
Definition held (w : world) : list nat :=
  remove_dups (snd <$> map_to_list (globals w)).

(** Number of calls of [spacy.load] and of [download] among events. *)
Definition is_load (e : event) : bool :=
  match e with SpacyLoad _ => true | _ => false end.
Definition is_download (e : event) : bool :=
  match e with Download _ => true | _ => false end.
Definition loads (es : list event) : nat := length (List.filter is_load es).
Definition downloads (es : list event) : nat :=
  length (List.filter is_download es).

End Script.

Import Script.

(** ** Sample inputs *)

Definition sample_token (s : string) (offset : nat) : TokenC :=
  {| orth := s; idx := offset; whitespace := " "; tag_ := ""; pos_ := "";
     lemma_ := s; dep := 0; sent_start := None |}.

(** A token of a parsed document: it has a dependency label, and the
    parser has decided whether it starts a sentence. *)
Definition parsed_token (s : string) (offset label : nat) (start : bool)
    : TokenC :=
  {| orth := s; idx := offset; whitespace := " "; tag_ := ""; pos_ := "";
     lemma_ := s; dep := label; sent_start := Some start |}.

(** The tokens of ["you ... never"], parsed as one sentence. *)
Definition parsed_tokens : list TokenC :=
  [ parsed_token "you" 0 429 true; parsed_token "..." 4 445 false;
    parsed_token "never" 8 400 false ].

Definition parsed_heap : heap :=
  {| docs := {[ 0 := parsed_tokens ]}; accesses := [] |}.

(** The tokens of ["you , ... never mind ..."]. *)
Definition sample_tokens : list TokenC :=
  [ sample_token "you" 0; sample_token "," 4; sample_token "..." 6;
    sample_token "never" 10; sample_token "mind" 16; sample_token "..." 21 ].

Definition sample_heap : heap :=
  {| docs := {[ 0 := sample_tokens ]}; accesses := [] |}.

(** The vocabulary of the sample: full stop and ellipsis are punctuation,
    ["you"] is a stop word. *)
Definition sample_vocab : Vocab :=
  fun w =>
    {| lex_is_alpha := negb (String.eqb w "." || String.eqb w "...");
       lex_is_punct := String.eqb w "." || String.eqb w "...";
       lex_is_stop := String.eqb w "you" |}.

(** A sample of counted words. *)
Definition sample_words : list string :=
  ["Gus"; "Natural"; "Language"; "Processing"; "developer"; "Gus";
   "Natural"; "Language"; "Processing"; "talk"; "Gus"; "talk"; "Piano";
   "London"; "Piano"; "London"; "music"].

(** Surroundings in which the model is not installed: the first load
    raises [OSError], every later call returns. *)
Definition model_missing : Env :=
  {| load_raises := fun es => match es with [] => Some OSError | _ => None end;
     import_raises := fun _ => None;
     download_raises := fun _ => None;
     statements_raise := fun _ => None |}.

(** Surroundings in which the first load runs out of memory. *)
Definition out_of_memory : Env :=
  {| load_raises := fun _ => Some MemoryError;
     import_raises := fun _ => None;
     download_raises := fun _ => None;
     statements_raise := fun _ => None |}.

(** [preserves I m]: statement [m] keeps the property [I] of the state,
    whether it returns or raises. *)
Definition preserves {S A} (I : S → Prop) (m : M S A) : Prop :=
  ∀ s, I s → I (snd (m s)).

(** The globals that the script binds to a pipeline object. *)
Definition pipeline_names : gset string := {[ "nlp"; "custom_nlp" ]}.

(** The script binds pipeline objects to [nlp] and [custom_nlp] only. *)
Definition binds_pipeline_names (w : world) : Prop :=
  dom (globals w) ⊆ pipeline_names.


(** ** Further parts of the script *)

(** Lines 217 and 220, the word list with the stop words left in:
    [[
    words_all = [token.text for token in complete_doc if not token.is_punct]
    ]] *)
Definition words_all (v : Vocab) (complete_doc : list TokenC) : list string :=
  map text (List.filter (fun token => negb (is_punct v token)) complete_doc).

(** Number of text reads and of [is_sent_start] assignments among
    accesses. *)
Definition is_read_text (a : access) : bool :=
  match a with ReadText _ _ => true | _ => false end.
Definition is_set_sent_start (a : access) : bool :=
  match a with SetSentStart _ _ => true | _ => false end.
Definition text_reads (l : list access) : nat :=
  length (List.filter is_read_text l).
Definition sent_start_writes (l : list access) : nat :=
  length (List.filter is_set_sent_start l).

(** Number of delimiter tokens among tokens. *)
Definition delimiters (c : list TokenC) : nat :=
  length (List.filter (fun t => String.eqb (text t) "...") c).

(** A document that ends in the delimiter and has no other. *)
Definition trailing_delimiter_tokens : list TokenC :=
  [sample_token "should" 0; sample_token "..." 7].

Definition trailing_delimiter_heap : heap :=
  {| docs := {[ 0 := trailing_delimiter_tokens ]}; accesses := [] |}.

(** The pipeline bound to [nlp] is the first object and is as it was
    loaded; [custom_nlp], when bound, is another object. *)
Definition nlp_untouched (w : world) : Prop :=
  globals w !! "nlp" = Some 0 ∧
  objects w !! 0 = Some en_core_web_sm ∧
  ∀ o, globals w !! "custom_nlp" = Some o → 0 < o.




(** * Properties *)

(** ** The sentence-boundary component *)

Lemma body_tokens_length k c : length (body_tokens k c) = length c.
Proof.
  unfold body_tokens.
  destruct (c !! k); [|done]. destruct (c !! (k + 1)); [|done].
  destruct (String.eqb _ _); [|done]. by rewrite length_insert.
Qed.

Lemma has_annotation_dep_fmap (c c' : list TokenC) :
  dep <$> c' = dep <$> c → has_annotation_dep c' = has_annotation_dep c.
Proof.
  assert (Hdep : ∀ l, has_annotation_dep l =
            match dep <$> l with
            | [] => true
            | ds => existsb (λ d, negb (d =? 0)) ds
            end).
  { intros [|t l]; [done|]. cbn. f_equal.
    induction l as [|t' l IH]; cbn; [done|]. by rewrite IH. }
  intros Heq. by rewrite !Hdep, Heq.
Qed.

Lemma has_annotation_dep_body_tokens k c :
  has_annotation_dep (body_tokens k c) = has_annotation_dep c.
Proof.
  apply has_annotation_dep_fmap. unfold body_tokens.
  destruct (c !! k); [|done]. destruct (c !! (k + 1)) as [tn|] eqn:Hn; [|done].
  destruct (String.eqb _ _); [|done].
  rewrite list_fmap_insert. apply list_insert_id.
  by rewrite list_lookup_fmap, Hn.
Qed.

(** The body of the loop on a document without a dependency parse. *)
Lemma body_run d k h c :
  docs h !! d = Some c → has_annotation_dep c = false → k + 1 < length c →
  ∃ h', set_custom_boundaries_body d k h = (Ok tt, h')
      ∧ docs h' = <[d := body_tokens k c]> (docs h)
      ∧ ∃ new, accesses h' = new ++ accesses h
             ∧ Forall (in_range d (length c)) new.
Proof.
  intros Hd Hdep Hk.
  destruct (lookup_lt_is_Some_2 c k) as [tk Htk]; [lia|].
  destruct (lookup_lt_is_Some_2 c (k + 1)) as [tn Htn]; [lia|].
  unfold set_custom_boundaries_body, bind, doc_getitem, token_text,
    token_set_is_sent_start, ret, body_tokens.
  rewrite Hd. destruct (decide (k < length c)) as [_|]; [|lia].
  cbn. rewrite Hd, Htk, Htn.
  destruct (String.eqb (orth tk) "...") eqn:E.
  - cbn. rewrite Hd. destruct (decide (k + 1 < length c)) as [_|]; [|lia].
    cbn. rewrite Hd, Hdep, Htn. eexists; split; [reflexivity|]. cbn.
    split; [done|].
    exists [SetSentStart d (k + 1); Visit d (k + 1); ReadText d k; Visit d k].
    split; [done|]. repeat constructor; cbn; lia.
  - eexists; split; [reflexivity|]. cbn.
    split; [by rewrite insert_id|].
    exists [ReadText d k; Visit d k].
    split; [done|]. repeat constructor; cbn; lia.
Qed.

(** The body of the loop on a document that has a dependency parse: the
    assignment raises, and nothing is assigned. *)
Lemma body_run_parsed d k h c :
  docs h !! d = Some c → has_annotation_dep c = true → k + 1 < length c →
  ∃ h',
    set_custom_boundaries_body d k h =
      (if follows_delimiter c (S k) then Raise ValueError else Ok tt, h')
    ∧ docs h' = docs h
    ∧ ∃ new, accesses h' = new ++ accesses h
           ∧ Forall (in_range d (length c)) new
           ∧ sent_start_writes new = 0.
Proof.
  intros Hd Hdep Hk.
  destruct (lookup_lt_is_Some_2 c k) as [tk Htk]; [lia|].
  unfold set_custom_boundaries_body, bind, doc_getitem, token_text,
    token_set_is_sent_start, ret.
  rewrite Hd. destruct (decide (k < length c)) as [_|]; [|lia].
  cbn. rewrite Hd, Htk. unfold text.
  destruct (String.eqb (orth tk) "...") eqn:E.
  - cbn. rewrite Hd. destruct (decide (k + 1 < length c)) as [_|]; [|lia].
    cbn. rewrite Hd, Hdep. eexists; split; [reflexivity|]. cbn.
    split; [done|].
    exists [Visit d (k + 1); ReadText d k; Visit d k].
    split; [done|]. split; [|done]. repeat constructor; cbn; lia.
  - eexists; split; [reflexivity|]. cbn. split; [done|].
    exists [ReadText d k; Visit d k].
    split; [done|]. split; [|done]. repeat constructor; cbn; lia.
Qed.

Lemma loop_run d n : ∀ a h c,
  docs h !! d = Some c → has_annotation_dep c = false →
  (n = 0 ∨ a + n < length c) →
  ∃ h', for_each (seq a n) (set_custom_boundaries_body d) h = (Ok tt, h')
      ∧ docs h' = <[d := foldl (λ c k, body_tokens k c) c (seq a n)]> (docs h)
      ∧ ∃ new, accesses h' = new ++ accesses h
             ∧ Forall (in_range d (length c)) new.
Proof.
  induction n as [|n IH]; intros a h c Hd Hdep Hn.
  - exists h. cbn. split; [done|]. split; [by rewrite insert_id|].
    exists []. by split.
  - destruct Hn as [|Hn]; [done|].
    destruct (body_run d a h c Hd Hdep)
      as (h1 & Hrun & Hdocs & new1 & Hacc1 & Hin1); [lia|].
    assert (Hd1 : docs h1 !! d = Some (body_tokens a c))
      by (rewrite Hdocs; apply lookup_insert_eq).
    destruct (IH (S a) h1 _ Hd1) as (h2 & Hrun2 & Hdocs2 & new2 & Hacc2 & Hin2).
    { by rewrite has_annotation_dep_body_tokens. }
    { rewrite body_tokens_length. destruct n; [by left|right; lia]. }
    exists h2. cbn [seq for_each foldl]. unfold bind at 1. rewrite Hrun.
    split; [done|]. split.
    + by rewrite Hdocs2, Hdocs, insert_insert_eq.
    + exists (new2 ++ new1). rewrite Hacc2, Hacc1, app_assoc.
      split; [done|]. apply Forall_app. split; [|done].
      by rewrite body_tokens_length in Hin2.
Qed.

Lemma loop_run_parsed d c n : ∀ a h,
  docs h !! d = Some c → has_annotation_dep c = true →
  (n = 0 ∨ a + n < length c) →
  ∃ h',
    for_each (seq a n) (set_custom_boundaries_body d) h =
      (if existsb (λ k, follows_delimiter c (S k)) (seq a n)
       then Raise ValueError else Ok tt, h')
    ∧ docs h' = docs h
    ∧ ∃ new, accesses h' = new ++ accesses h
           ∧ Forall (in_range d (length c)) new
           ∧ sent_start_writes new = 0.
Proof.
  induction n as [|n IH]; intros a h Hd Hdep Hn.
  - exists h. cbn. split; [done|]. split; [done|]. by exists [].
  - destruct Hn as [|Hn]; [done|].
    destruct (body_run_parsed d a h c Hd Hdep)
      as (h1 & Hrun & Hdocs & new1 & Hacc1 & Hin1 & Hw1); [lia|].
    cbn [seq for_each existsb]. unfold bind at 1. rewrite Hrun.
    destruct (follows_delimiter c (S a)); cbn [orb].
    + exists h1. split; [done|]. split; [done|]. by exists new1.
    + assert (Hd1 : docs h1 !! d = Some c) by by rewrite Hdocs.
      destruct (IH (S a) h1 Hd1 Hdep)
        as (h2 & Hrun2 & Hdocs2 & new2 & Hacc2 & Hin2 & Hw2).
      { destruct n; [by left|right; lia]. }
      exists h2. split; [done|]. split; [congruence|].
      exists (new2 ++ new1). rewrite Hacc2, Hacc1, app_assoc.
      split; [done|]. split; [by apply Forall_app|].
      unfold sent_start_writes in *.
      rewrite List.filter_app, length_app. lia.
Qed.

Lemma existsb_delimiter_take (c : list TokenC) n :
  n ≤ length c →
  existsb (λ k, follows_delimiter c (S k)) (seq 0 n) =
  existsb (λ t, String.eqb (text t) "...") (take n c).
Proof.
  induction n as [|n IH]; intros Hn; [done|].
  destruct (lookup_lt_is_Some_2 c n) as [t Ht]; [lia|].
  rewrite seq_S, existsb_app, IH by lia.
  rewrite (take_S_r c n t Ht), existsb_app. cbn. by rewrite Ht.
Qed.

Lemma with_sent_start_orth v t : orth (with_sent_start v t) = orth t.
Proof. done. Qed.

(** The tokens after the loop ran for the indices below [n]: token [j]
    carries the mark when it follows a delimiter and [j <= n]. *)
Lemma loop_tokens (c : list TokenC) n :
  n = 0 ∨ n < length c →
  let c' := foldl (λ c k, body_tokens k c) c (seq 0 n) in
  length c' = length c ∧
  ∀ j, c' !! j =
       if follows_delimiter c j && bool_decide (j ≤ n)
       then with_sent_start (Some true) <$> c !! j
       else c !! j.
Proof.
  induction n as [|n IH]; intros Hn; cbn zeta.
  - split; [done|]. intros [|j]; cbn; [done|].
    rewrite andb_false_r. done.
  - destruct Hn as [|Hn]; [done|].
    destruct IH as [Hlen IH]; [destruct n; [by left|right; lia]|].
    rewrite seq_S, foldl_app. cbn [foldl plus].
    set (c' := foldl _ c (seq 0 n)) in *.
    split; [by rewrite body_tokens_length|].
    intros j. unfold body_tokens.
    destruct (lookup_lt_is_Some_2 c n) as [tk Htk]; [lia|].
    destruct (lookup_lt_is_Some_2 c (n + 1)) as [tn Htn]; [lia|].
    pose proof (IH n) as Hk. pose proof (IH (n + 1)) as Hk1.
    rewrite Htk in Hk. rewrite Htn in Hk1.
    rewrite (bool_decide_eq_false_2 (n + 1 ≤ n)), andb_false_r in Hk1 by lia.
    rewrite Hk1.
    assert (∃ tk', c' !! n = Some tk' ∧ orth tk' = orth tk) as (tk' & -> & ->).
    { rewrite Hk. destruct (_ && _); cbn; eauto. }
    destruct (decide (j = n + 1)) as [->|Hj].
    + replace (follows_delimiter c (n + 1)) with (String.eqb (orth tk) "...")
        by (replace (n + 1) with (S n) by lia; cbn; by rewrite Htk).
      rewrite bool_decide_eq_true_2 by lia. rewrite andb_true_r.
      destruct (String.eqb (orth tk) "...").
      * rewrite list_lookup_insert_eq by lia. by rewrite Htn.
      * by rewrite Hk1, Htn.
    + assert (Hb : bool_decide (j ≤ S n) = bool_decide (j ≤ n))
        by (apply bool_decide_ext; lia).
      rewrite Hb, <- IH.
      destruct (String.eqb (orth tk) "..."); [|done].
      by rewrite list_lookup_insert_ne by lia.
Qed.

(** A call of the component on a live document: its result, the tokens
    it leaves and its accesses. On a document without a parse every token
    that follows a delimiter is marked; on a parsed document nothing is
    assigned and the call raises when a delimiter stands before the last
    token. *)
Lemma set_custom_boundaries_run d h c :
  docs h !! d = Some c →
  ∃ h' c', set_custom_boundaries d h = (outcome d c, h')
      ∧ docs h' = <[d := c']> (docs h)
      ∧ length c' = length c
      ∧ (∀ j, c' !! j =
              if follows_delimiter c j && negb (has_annotation_dep c)
              then with_sent_start (Some true) <$> c !! j
              else c !! j)
      ∧ ∃ new, accesses h' = new ++ accesses h
             ∧ Forall (in_range d (length c)) new.
Proof.
  intros Hd. unfold outcome, delimiter_before_last.
  destruct (has_annotation_dep c) eqn:Hdep; cbn [andb negb].
  - destruct (loop_run_parsed d c (length c - 1) 0 h Hd Hdep)
      as (h' & Hrun & Hdocs & new & Hacc & Hin & _); [lia|].
    rewrite existsb_delimiter_take in Hrun by lia.
    exists h', c. split.
    { unfold set_custom_boundaries, span_all_but_last, bind, doc_len, ret.
      rewrite Hd. cbn. rewrite Hrun.
      by destruct (existsb _ _). }
    split; [by rewrite Hdocs, insert_id|]. split; [done|].
    split; [|by exists new].
    intros j. by rewrite andb_false_r.
  - destruct (loop_run d (length c - 1) 0 h c Hd Hdep)
      as (h' & Hrun & Hdocs & Hacc); [lia|].
    destruct (loop_tokens c (length c - 1)) as [Hlen Hlook]; [lia|].
    exists h', (foldl (λ c k, body_tokens k c) c (seq 0 (length c - 1))).
    split; [|split; [done|split; [done|split; [|done]]]].
    + unfold set_custom_boundaries, span_all_but_last, bind, doc_len, ret.
      rewrite Hd. cbn. by rewrite Hrun.
    + intros j. rewrite Hlook, andb_true_r.
      destruct (follows_delimiter c j) eqn:E; [|done]. cbn.
      case_bool_decide; [done|].
      rewrite (lookup_ge_None_2 c j) by lia. done.
Qed.

(** C2, as stated, fails on a document that has a dependency parse: the
    assignment of line 64 raises [ValueError] there, and the token after
    the delimiter is left as the parser set it. *)
Lemma delimiter_marks_next_token_counterexample :
  ¬ (∀ (h : heap) (doc : ref) (c : list TokenC) (k : nat) (t : TokenC),
       docs h !! doc = Some c →
       k < length c - 1 →
       c !! k = Some t →
       text t = "..." →
       ∃ c' t',
         docs (snd (set_custom_boundaries doc h)) !! doc = Some c' ∧
         c' !! (k + 1) = Some t' ∧
         is_sent_start t' = Some true).
Proof.
  intros H.
  destruct (H parsed_heap 0 parsed_tokens 1 (parsed_token "..." 4 445 false))
    as (c' & t' & Hc' & Ht' & Hstart); [reflexivity|cbn; lia|reflexivity..|].
  vm_compute in Hc'. injection Hc' as <-.
  vm_compute in Ht'. injection Ht' as <-.
  discriminate Hstart.
Qed.

(** C2, amended. For a live document with tokens [c] that has no
    dependency parse (the component is added before the parser) and an
    index [k] below [length c - 1]: when the text of token [k] is the
    delimiter ["..."], the component returns, and in the document it
    leaves, token [k + 1] has [is_sent_start] set to [True]. *)
Theorem delimiter_marks_next_token (h : heap) (doc : ref) (c : list TokenC)
    (k : nat) (t : TokenC) :
  docs h !! doc = Some c →
  has_annotation_dep c = false →
  k < length c - 1 →
  c !! k = Some t →
  text t = "..." →
  ∃ h' c' t',
    set_custom_boundaries doc h = (Ok doc, h') ∧
    docs h' !! doc = Some c' ∧
    c' !! (k + 1) = Some t' ∧
    is_sent_start t' = Some true.
Proof.
  intros Hd Hdep Hk Ht Htxt.
  destruct (set_custom_boundaries_run doc h c Hd)
    as (h' & c' & Hrun & Hdocs & _ & Hlook & _).
  destruct (lookup_lt_is_Some_2 c (k + 1)) as [tn Htn]; [lia|].
  exists h', c', (with_sent_start (Some true) tn).
  split; [by rewrite Hrun; unfold outcome; rewrite Hdep|].
  split; [rewrite Hdocs; apply lookup_insert_eq|].
  split; [|done].
  rewrite Hlook, Hdep. replace (k + 1) with (S k) in * by lia.
  cbn. rewrite Ht, Htxt. cbn. by rewrite Htn.
Qed.

Lemma delimiter_marks_next_token_witness :
  ∃ h' c' t',
    set_custom_boundaries 0 sample_heap = (Ok 0, h') ∧
    docs h' !! 0 = Some c' ∧
    c' !! (2 + 1) = Some t' ∧
    is_sent_start t' = Some true.
Proof.
  apply (delimiter_marks_next_token sample_heap 0 sample_tokens 2
           (sample_token "..." 6)).
  - reflexivity.
  - reflexivity.
  - cbn. lia.
  - reflexivity.
  - reflexivity.
Defined.

(** C8. The component never reads or writes past the end of a live
    document, the empty and the one-token document included: every token
    it obtains or assigns lies inside the document, it reads the text
    only of tokens that have a successor, and so no access raises
    [IndexError]. The call returns the document, except on a document
    that has a dependency parse and a delimiter before its last token,
    where the assignment raises [ValueError]. *)
Theorem set_custom_boundaries_stays_in_range (h : heap) (doc : ref)
    (c : list TokenC) :
  docs h !! doc = Some c →
  ∃ h' new,
    set_custom_boundaries doc h =
      (if has_annotation_dep c && delimiter_before_last c
       then Raise ValueError else Ok doc, h') ∧
    accesses h' = new ++ accesses h ∧
    Forall (in_range doc (length c)) new.
Proof.
  intros Hd.
  destruct (set_custom_boundaries_run doc h c Hd)
    as (h' & c' & Hrun & _ & _ & _ & new & Hacc & Hin).
  by exists h', new.
Qed.

Lemma set_custom_boundaries_stays_in_range_witness :
  (∃ h' new,
    set_custom_boundaries 0 sample_heap = (Ok 0, h') ∧
    accesses h' = new ++ accesses sample_heap ∧
    Forall (in_range 0 (length sample_tokens)) new) ∧
  (∃ h' new,
    set_custom_boundaries 3 {| docs := {[ 3 := [] ]}; accesses := [] |}
      = (Ok 3, h') ∧
    accesses h' = new ++ [] ∧
    Forall (in_range 3 0) new) ∧
  (∃ h' new,
    set_custom_boundaries 3
      {| docs := {[ 3 := [sample_token "..." 0] ]}; accesses := [] |}
      = (Ok 3, h') ∧
    accesses h' = new ++ [] ∧
    Forall (in_range 3 1) new) ∧
  (∃ h' new,
    set_custom_boundaries 0 parsed_heap = (Raise ValueError, h') ∧
    accesses h' = new ++ accesses parsed_heap ∧
    Forall (in_range 0 (length parsed_tokens)) new).
Proof.
  split; [|split; [|split]].
  - apply (set_custom_boundaries_stays_in_range sample_heap 0 sample_tokens).
    reflexivity.
  - apply (set_custom_boundaries_stays_in_range
             {| docs := {[ 3 := [] ]}; accesses := [] |} 3 []).
    reflexivity.
  - apply (set_custom_boundaries_stays_in_range
             {| docs := {[ 3 := [sample_token "..." 0] ]}; accesses := [] |}
             3 [sample_token "..." 0]).
    reflexivity.
  - apply (set_custom_boundaries_stays_in_range parsed_heap 0 parsed_tokens).
    reflexivity.
Defined.



(** ** The frequency table *)

Section CounterFacts.

Implicit Types (d c : dict) (l : list string) (w k : string).

Lemma dict_get_setitem d k v k' :
  dict_get (dict_setitem d k v) k' =
  if decide (k = k') then Some v else dict_get d k'.
Proof.
  induction d as [|[k0 v0] d IH]; cbn.
  - by destruct (decide (k = k')).
  - destruct (decide (k0 = k)) as [->|Hne]; cbn.
    + by destruct (decide (k = k')).
    + destruct (decide (k0 = k')) as [->|]; [|done].
      by rewrite decide_False.
Qed.

Lemma dict_get_None d k : dict_get d k = None ↔ k ∉ keys d.
Proof.
  unfold keys.
  induction d as [|[k0 v0] d IH]; cbn.
  - split; [intros _; apply not_elem_of_nil|done].
  - rewrite not_elem_of_cons. destruct (decide (k0 = k)) as [->|Hne].
    + split; [done|]. by intros [? _].
    + rewrite IH. split; [by split|by intros [_ ?]].
Qed.

Lemma keys_setitem d k v :
  keys (dict_setitem d k v) =
  if decide (k ∈ keys d) then keys d else keys d ++ [k].
Proof.
  unfold keys.
  induction d as [|[k0 v0] d IH]; cbn.
  - rewrite decide_False; [done|apply not_elem_of_nil].
  - destruct (decide (k0 = k)) as [->|Hne]; cbn.
    + rewrite decide_True; [done|apply list_elem_of_here].
    + rewrite IH. destruct (decide (k ∈ map fst d)) as [Hin|Hnin].
      * rewrite decide_True; [done|by apply list_elem_of_further].
      * rewrite decide_False; [done|].
        rewrite not_elem_of_cons. by split.
Qed.

Lemma values_count_element d k :
  sum_list (values (count_element d k)) = S (sum_list (values d)).
Proof.
  unfold count_element, values.
  induction d as [|[k0 v0] d IH]; cbn; [done|].
  destruct (decide (k0 = k)) as [->|Hne]; cbn; [lia|].
  rewrite IH. lia.
Qed.

Lemma Counter_snoc l w :
  Counter (l ++ [w]) = count_element (Counter l) w.
Proof. unfold Counter. by rewrite fold_left_app. Qed.

Lemma occurrences_snoc l w k :
  occurrences k (l ++ [w]) =
  occurrences k l + (if decide (w = k) then 1 else 0).
Proof.
  unfold occurrences. rewrite count_occ_app. cbn.
  destruct (String.string_dec w k), (decide (w = k)); done.
Qed.

Lemma occurrences_pos l w : 0 < occurrences w l ↔ w ∈ l.
Proof.
  unfold occurrences. rewrite list_elem_of_In.
  rewrite (count_occ_In String.string_dec). unfold gt. done.
Qed.

(** The table reads the number of occurrences, and has no entry for a
    word that does not occur. *)
Lemma Counter_get l w :
  dict_get (Counter l) w =
  if decide (w ∈ l) then Some (occurrences w l) else None.
Proof.
  induction l as [|x l IH] using rev_ind.
  - cbn. rewrite decide_False; [done|apply not_elem_of_nil].
  - rewrite Counter_snoc. unfold count_element.
    rewrite dict_get_setitem, occurrences_snoc.
    destruct (decide (x = w)) as [->|Hne].
    + rewrite decide_True by (apply elem_of_app; right; apply list_elem_of_here).
      rewrite IH. destruct (decide (w ∈ l)) as [Hin|Hnin]; cbn; [done|].
      f_equal. assert (occurrences w l = 0); [|lia].
      destruct (occurrences w l) eqn:E; [done|].
      exfalso. apply Hnin, occurrences_pos. lia.
    + rewrite IH, Nat.add_0_r.
      destruct (decide (w ∈ l)) as [Hin|Hnin].
      * rewrite decide_True; [done|]. apply elem_of_app. by left.
      * rewrite decide_False; [done|].
        rewrite elem_of_app, list_elem_of_singleton. intros [?|?]; done.
Qed.

Lemma Counter_keys_elem l w : w ∈ keys (Counter l) ↔ w ∈ l.
Proof.
  pose proof (Counter_get l w) as Hg.
  pose proof (dict_get_None (Counter l) w) as Hn.
  destruct (decide (w ∈ l)) as [Hin|Hnin].
  - split; [done|]. intros _.
    destruct (decide (w ∈ keys (Counter l))) as [|Hk]; [done|].
    apply Hn in Hk. congruence.
  - split; [|done]. intros Hk. exfalso. by apply Hn.
Qed.

Lemma Counter_keys_snoc l w :
  keys (Counter (l ++ [w])) =
  if decide (w ∈ l) then keys (Counter l) else keys (Counter l) ++ [w].
Proof.
  rewrite Counter_snoc. unfold count_element. rewrite keys_setitem.
  destruct (decide (w ∈ keys (Counter l))) as [Hk|Hk];
    rewrite Counter_keys_elem in Hk.
  - by rewrite decide_True.
  - by rewrite decide_False.
Qed.

Lemma Counter_keys_NoDup l : NoDup (keys (Counter l)).
Proof.
  induction l as [|x l IH] using rev_ind; [constructor|].
  rewrite Counter_keys_snoc. destruct (decide (x ∈ l)) as [|Hnin]; [done|].
  apply NoDup_app. split; [done|]. split; [|apply NoDup_singleton].
  intros y Hy ->%list_elem_of_singleton. by apply Hnin, Counter_keys_elem.
Qed.

Lemma dict_get_Some_elem d k v :
  NoDup (keys d) → dict_get d k = Some v ↔ (k, v) ∈ items d.
Proof.
  unfold items, keys.
  induction d as [|[k0 v0] d IH]; cbn; intros Hnd.
  - split; [done|]. by intros ?%elem_of_nil.
  - apply NoDup_cons in Hnd as [Hk0 Hnd].
    rewrite elem_of_cons, <- IH by done.
    destruct (decide (k0 = k)) as [->|Hne].
    + split; [intros [= ->]; by left|].
      intros [[= ->]|Hget]; [done|].
      exfalso. apply Hk0. 
      destruct (decide (k ∈ keys d)) as [|Hn]; [done|].
      apply dict_get_None in Hn. congruence.
    + split; [by right|]. intros [[= -> ->]|]; done.
Qed.

Lemma Counter_items l w n :
  (w, n) ∈ items (Counter l) ↔ w ∈ l ∧ n = occurrences w l.
Proof.
  rewrite <- dict_get_Some_elem by apply Counter_keys_NoDup.
  rewrite Counter_get. destruct (decide (w ∈ l)) as [Hin|Hnin].
  - split; [by intros [= <-]|by intros [_ ->]].
  - split; [done|by intros [? _]].
Qed.

End CounterFacts.

(** C3. The frequency table has one key for each distinct text of the
    sequence and no other key, and it maps each of them to the number of
    its occurrences in the sequence. *)
Theorem Counter_counts_occurrences (token_texts : list string) :
  let c := word_freq token_texts in
  NoDup (keys c) ∧
  (∀ w, w ∈ keys c ↔ w ∈ token_texts) ∧
  (∀ w n, dict_get c w = Some n ↔ w ∈ token_texts ∧ n = occurrences w token_texts) ∧
  (∀ w n, (w, n) ∈ items c ↔ w ∈ token_texts ∧ n = occurrences w token_texts).
Proof.
  cbn zeta. unfold word_freq.
  split; [apply Counter_keys_NoDup|].
  split; [apply Counter_keys_elem|].
  split; [|apply Counter_items].
  intros w n. rewrite dict_get_Some_elem by apply Counter_keys_NoDup.
  apply Counter_items.
Qed.

Lemma unique_words_elem (c : dict) (w : string) :
  w ∈ unique_words c ↔ (w, 1) ∈ items c.
Proof.
  unfold unique_words. rewrite list_elem_of_In, in_map_iff. split.
  - intros ([w' n] & <- & [Hin Hn]%filter_In).
    apply Nat.eqb_eq in Hn as ->. by apply list_elem_of_In.
  - intros Hin. exists (w, 1). split; [done|].
    apply filter_In. split; [by apply list_elem_of_In|done].
Qed.

(** C4. A word is in the result of the unique-words query if and only if
    it occurs exactly once in the sequence; the result lists each such
    word once. *)
Theorem unique_words_occur_once (token_texts : list string) :
  (∀ w, w ∈ unique_words (word_freq token_texts)
        ↔ occurrences w token_texts = 1) ∧
  NoDup (unique_words (word_freq token_texts)).
Proof.
  unfold word_freq. split.
  - intros w. rewrite unique_words_elem, Counter_items. split.
    + by intros [_ <-].
    + intros Hw. split; [|done]. apply occurrences_pos. lia.
  - unfold unique_words.
    pose proof (Counter_keys_NoDup token_texts) as Hnd.
    unfold keys, items in *.
    induction (Counter token_texts) as [|[k v] d IH]; cbn; [constructor|].
    apply NoDup_cons in Hnd as [Hk Hnd].
    destruct (v =? 1); cbn; [|by apply IH].
    apply NoDup_cons. split; [|by apply IH].
    intros Hin. apply Hk.
    apply list_elem_of_In, in_map_iff in Hin as ([k' v'] & <- & [Hin _]%filter_In).
    apply list_elem_of_In, in_map_iff. by exists (k', v').
Qed.

(** C10. The counts of the frequency table add up to the length of the
    sequence. *)
Theorem Counter_conserves_occurrences (token_texts : list string) :
  sum_list (values (word_freq token_texts)) = length token_texts.
Proof.
  unfold word_freq.
  induction token_texts as [|x l IH] using rev_ind; [done|].
  rewrite Counter_snoc, values_count_element, IH, length_app. cbn. lia.
Qed.

(** ** The top-K query *)

Lemma insert_desc_Permutation x s : insert_desc x s ≡ₚ x :: s.
Proof.
  induction s as [|y s IH]; cbn; [done|].
  destruct (snd y <=? snd x); [done|].
  rewrite IH. apply Permutation_swap.
Qed.

Lemma sorted_desc_Permutation xs : sorted_desc xs ≡ₚ xs.
Proof.
  induction xs as [|x xs IH]; cbn; [done|].
  by rewrite insert_desc_Permutation, IH.
Qed.

Section Stable.

(** [before a b]: item [a] comes before item [b] in the list that is
    sorted. *)
Variable before : relation (string * nat).

Lemma desc_then_before_ge a b : (desc_then_before before) a b → snd b ≤ snd a.
Proof. intros [?|[? _]]; lia. Qed.

Lemma insert_desc_sorted x s :
  StronglySorted (desc_then_before before) s →
  Forall (before x) s →
  StronglySorted (desc_then_before before) (insert_desc x s).
Proof.
  induction 1 as [|y s Hs IH Hy]; intros Hx; cbn.
  - repeat constructor.
  - apply Forall_cons in Hx as [Hxy Hx].
    destruct (snd y <=? snd x) eqn:E.
    + apply Nat.leb_le in E. constructor; [by constructor|].
      constructor.
      * destruct (decide (snd y = snd x)) as [Heq|Hne];
          [right; by split|left; lia].
      * rewrite Forall_forall in Hy, Hx |- *. intros z Hz.
        pose proof (desc_then_before_ge _ _ (Hy z Hz)).
        destruct (decide (snd z = snd x)) as [Heq|Hne];
          [right; split; [done|by apply Hx]|left; lia].
    + apply Nat.leb_gt in E. constructor; [by apply IH|].
      rewrite insert_desc_Permutation. constructor; [by left|done].
Qed.

Lemma sorted_desc_sorted xs :
  StronglySorted before xs →
  StronglySorted (desc_then_before before) (sorted_desc xs).
Proof.
  induction 1 as [|x xs Hxs IH Hx]; cbn; [constructor|].
  apply insert_desc_sorted; [done|].
  by rewrite sorted_desc_Permutation.
Qed.

End Stable.

Lemma StronglySorted_lookup {A} (R : relation A) (l : list A) i j a b :
  StronglySorted R l → i < j → l !! i = Some a → l !! j = Some b → R a b.
Proof.
  intros Hs. revert i j. induction Hs as [|x l Hs IH Hx]; intros i j Hij Hi Hj.
  - done.
  - destruct j as [|j]; [lia|]. cbn in Hj. destruct i as [|i]; cbn in Hi.
    + injection Hi as ->. rewrite Forall_forall in Hx.
      by eapply Hx, list_elem_of_lookup_2.
    + eapply (IH i j); [lia|done..].
Qed.

Lemma first_seen_lt w l : w ∈ l → first_seen w l < length l.
Proof.
  induction l as [|x l IH]; cbn; [by intros ?%elem_of_nil|].
  intros Hin. destruct (decide (x = w)) as [|Hne]; [lia|].
  apply elem_of_cons in Hin as [->|Hin]; [done|].
  apply IH in Hin. lia.
Qed.

Lemma first_seen_snoc_old w l x :
  w ∈ l → first_seen w (l ++ [x]) = first_seen w l.
Proof.
  induction l as [|y l IH]; cbn; [by intros ?%elem_of_nil|].
  intros Hin. destruct (decide (y = w)) as [|Hne]; [done|].
  apply elem_of_cons in Hin as [->|Hin]; [done|]. by rewrite IH.
Qed.

Lemma first_seen_snoc_new l x :
  x ∉ l → first_seen x (l ++ [x]) = length l.
Proof.
  induction l as [|y l IH]; cbn; intros Hnin.
  - by rewrite decide_True.
  - apply not_elem_of_cons in Hnin as [Hne Hnin].
    rewrite decide_False by done. by rewrite IH.
Qed.

Lemma StronglySorted_mono_elem {A} (R1 R2 : relation A) (l : list A) :
  (∀ a b, a ∈ l → b ∈ l → R1 a b → R2 a b) →
  StronglySorted R1 l → StronglySorted R2 l.
Proof.
  intros Himp Hs. induction Hs as [|x l Hs IH Hx]; constructor.
  - apply IH. intros a b Ha Hb. apply Himp; by apply list_elem_of_further.
  - rewrite Forall_forall in Hx |- *. intros y Hy.
    apply Himp; [apply list_elem_of_here|by apply list_elem_of_further|by apply Hx].
Qed.

Lemma StronglySorted_fmap_inv {A B} (f : A → B) (R : relation B) (l : list A) :
  StronglySorted R (f <$> l) → StronglySorted (λ a b, R (f a) (f b)) l.
Proof.
  induction l as [|x l IH]; cbn; [constructor|].
  intros [Hx Hs]%StronglySorted_cons. constructor; [by apply IH|].
  by rewrite Forall_fmap in Hx.
Qed.

(** The keys of the table are in the order in which the words are first
    seen. *)
Lemma Counter_keys_first_seen l :
  StronglySorted (λ a b, first_seen a l < first_seen b l) (keys (Counter l)).
Proof.
  induction l as [|x l IH] using rev_ind; [constructor|].
  assert (Hold : StronglySorted
            (λ a b, first_seen a (l ++ [x]) < first_seen b (l ++ [x]))
            (keys (Counter l))).
  { revert IH. apply StronglySorted_mono_elem.
    intros a b Ha Hb.
    apply (proj1 (Counter_keys_elem _ _)) in Ha, Hb.
    by rewrite !first_seen_snoc_old. }
  rewrite Counter_keys_snoc. destruct (decide (x ∈ l)) as [|Hnin]; [done|].
  apply StronglySorted_app_2; [|done|repeat constructor].
  intros a b Ha ->%list_elem_of_singleton.
  apply (proj1 (Counter_keys_elem _ _)) in Ha.
  rewrite first_seen_snoc_old, first_seen_snoc_new by done.
  by apply first_seen_lt.
Qed.

Lemma sorted_Counter_ranked l :
  StronglySorted (ranks_before l) (sorted_desc (items (Counter l))).
Proof.
  apply sorted_desc_sorted.
  apply (StronglySorted_fmap_inv fst (λ a b, first_seen a l < first_seen b l)).
  apply Counter_keys_first_seen.
Qed.

(** C1. The top-K query on the frequency table of a sequence returns at
    most K entries (K, or all the distinct words when there are fewer);
    each entry is a word of the sequence with its number of occurrences;
    entries are in descending order of count, and of two entries with the
    same count the one whose word is seen first in the sequence comes
    first; a word that is left out ranks after every entry. The script
    asks for K = 5. *)
Theorem most_common_top_k (token_texts : list string) (K : nat) :
  let top := most_common K (word_freq token_texts) in
  length top ≤ K ∧
  length top = K `min` length (keys (word_freq token_texts)) ∧
  NoDup (fst <$> top) ∧
  (∀ w n, (w, n) ∈ top → w ∈ token_texts ∧ n = occurrences w token_texts) ∧
  (∀ i j w1 n1 w2 n2,
     i < j → top !! i = Some (w1, n1) → top !! j = Some (w2, n2) →
     n2 ≤ n1 ∧
     (n1 = n2 → first_seen w1 token_texts < first_seen w2 token_texts)) ∧
  (∀ w w' n',
     w ∈ token_texts → w ∉ fst <$> top → (w', n') ∈ top →
     occurrences w token_texts ≤ n' ∧
     (occurrences w token_texts = n' →
      first_seen w' token_texts < first_seen w token_texts)).
Proof.
  cbn zeta. unfold word_freq, most_common.
  pose proof (sorted_Counter_ranked token_texts) as Hs.
  pose proof (sorted_desc_Permutation (items (Counter token_texts))) as Hp.
  set (s := sorted_desc (items (Counter token_texts))) in *.
  assert (Hrank : ∀ a b, ranks_before token_texts a b →
            snd b ≤ snd a ∧
            (snd a = snd b →
             first_seen (fst a) token_texts < first_seen (fst b) token_texts)).
  { unfold ranks_before, desc_then_before.
    intros a b [?|[? ?]]; split; intros; lia || done. }
  assert (Hin : ∀ w n, (w, n) ∈ s ↔
            w ∈ token_texts ∧ n = occurrences w token_texts).
  { intros w n. rewrite Hp. apply Counter_items. }
  split; [rewrite length_take; lia|].
  split.
  { rewrite length_take. unfold keys. rewrite length_map.
    by rewrite (Permutation_length Hp). }
  split.
  { rewrite fmap_take. eapply sublist_NoDup; [|apply sublist_take].
    rewrite Hp. apply Counter_keys_NoDup. }
  split.
  { intros w n (i & Hi & _)%elem_of_take.
    by eapply Hin, list_elem_of_lookup_2. }
  split.
  { intros i j w1 n1 w2 n2 Hij [Hi _]%lookup_take_Some [Hj _]%lookup_take_Some.
    apply (Hrank (w1, n1) (w2, n2)).
    by eapply (StronglySorted_lookup _ s i j). }
  intros w w' n' Hw Hout Htop.
  cut (ranks_before token_texts (w', n') (w, occurrences w token_texts)).
  { intros [Hle Hfirst]%Hrank. cbn in *. split; [done|]. intros Heq.
    by apply Hfirst. }
  rewrite <- (take_drop K s) in Hs.
  eapply StronglySorted_app_1_elem_of; [done..|].
  assert (Hws : (w, occurrences w token_texts) ∈ take K s ++ drop K s)
    by (rewrite take_drop; by apply Hin).
  apply elem_of_app in Hws as [Hws|Hws]; [|done].
  exfalso. apply Hout, list_elem_of_fmap. by exists (w, occurrences w token_texts).
Qed.

(** ** The word list *)

Lemma words_elem (v : Vocab) (complete_doc : list TokenC) (w : string) :
  w ∈ words v complete_doc ↔
  ∃ token, token ∈ complete_doc ∧ text token = w ∧
           is_stop v token = false ∧ is_punct v token = false.
Proof.
  unfold words. rewrite list_elem_of_In, in_map_iff. split.
  - intros (token & Htxt & [Hin Hkeep]%filter_In).
    apply andb_true_iff in Hkeep as [Hs%negb_true_iff Hp%negb_true_iff].
    exists token. by rewrite list_elem_of_In.
  - intros (token & Hin & Htxt & Hs & Hp). exists token. split; [done|].
    apply filter_In. split; [by apply list_elem_of_In|].
    by rewrite Hs, Hp.
Qed.

(** C5. Every word of the counted list is neither a stop word nor
    punctuation in the vocabulary, and for every token of the processed
    document, its text is in the counted list if and only if its
    [is_stop] flag and its [is_punct] flag are both false. The flags of a
    token are those of the vocabulary entry of its text. *)
Theorem words_are_the_kept_tokens (v : Vocab) (complete_doc : list TokenC)
    (token : TokenC) :
  token ∈ complete_doc →
  (∀ w, w ∈ words v complete_doc →
        lex_is_stop (v w) = false ∧ lex_is_punct (v w) = false) ∧
  (text token ∈ words v complete_doc ↔
   is_stop v token = false ∧ is_punct v token = false).
Proof.
  intros Hin. split.
  - intros w (t & _ & <- & Hs & Hp)%words_elem. by split.
  - rewrite words_elem. split.
    + intros (t & _ & Htxt & Hs & Hp).
      unfold is_stop, is_punct, text in *. by rewrite <- Htxt.
    + intros [Hs Hp]. by exists token.
Qed.

Lemma words_are_the_kept_tokens_witness :
  (∀ w, w ∈ words sample_vocab sample_tokens →
        lex_is_stop (sample_vocab w) = false ∧
        lex_is_punct (sample_vocab w) = false) ∧
  (text (sample_token "never" 10) ∈ words sample_vocab sample_tokens ↔
   is_stop sample_vocab (sample_token "never" 10) = false ∧
   is_punct sample_vocab (sample_token "never" 10) = false).
Proof.
  apply (words_are_the_kept_tokens sample_vocab sample_tokens
           (sample_token "never" 10)).
  apply (list_elem_of_lookup_2 _ 3). reflexivity.
Defined.

(** ** The guarded load *)

(** C6. The load of the pipeline handles one failure only. When the
    first [spacy.load] returns, nothing else is called: no download. When
    it raises an exception that is not an [OSError], the exception
    leaves the statement and nothing else is called. When it raises an
    [OSError], the handler imports and calls [download] and then calls
    [spacy.load] once more, and only once: what the import, the download
    or the second load raise is not caught. *)
Ltac count_calls := unfold loads, downloads; cbn; lia.

Theorem load_nlp_handles_missing_model_only (env : Env) (w : world) :
  let m := "en_core_web_sm" in
  let r := fst (load_nlp env w) in
  let w' := snd (load_nlp env w) in
  (load_raises env (events w) = None →
     r = Ok tt ∧
     w' = {| events := events w ++ [SpacyLoad m];
             objects := objects w ++ [en_core_web_sm];
             globals := <["nlp" := length (objects w)]> (globals w) |}) ∧
  (∀ e, load_raises env (events w) = Some e → issubclass e OSError = false →
     r = Raise e ∧
     w' = {| events := events w ++ [SpacyLoad m];
             objects := objects w; globals := globals w |}) ∧
  (∀ e, load_raises env (events w) = Some e → issubclass e OSError = true →
     ∃ rest,
       events w' = events w ++ [SpacyLoad m; ImportDownload] ++ rest ∧
       loads rest ≤ 1 ∧ downloads rest ≤ 1 ∧
       (import_raises env (events w ++ [SpacyLoad m]) = None →
          ∃ rest', rest = Download m :: rest') ∧
       (import_raises env (events w ++ [SpacyLoad m]) = None →
        download_raises env (events w ++ [SpacyLoad m; ImportDownload]) = None →
          rest = [Download m; SpacyLoad m] ∧
          r = match load_raises env
                      (events w ++ [SpacyLoad m; ImportDownload; Download m]) with
              | None => Ok tt
              | Some e2 => Raise e2
              end) ∧
       (∀ e1, import_raises env (events w ++ [SpacyLoad m]) = Some e1 →
          rest = [] ∧ r = Raise e1) ∧
       (∀ e2, import_raises env (events w ++ [SpacyLoad m]) = None →
          download_raises env (events w ++ [SpacyLoad m; ImportDownload]) = Some e2 →
          rest = [Download m] ∧ r = Raise e2)).
Proof.
  cbn zeta.
  unfold load_nlp, try_except, spacy_load, import_download, download,
    external, bind, assign, modify, record.
  destruct (load_raises env (events w)) as [e|] eqn:Hload; cbn.
  - split; [done|]. split.
    + intros ? [= <-] Hsub. by rewrite Hsub.
    + intros ? [= <-] Hsub. rewrite Hsub. cbn.
      rewrite <- !app_assoc. cbn.
      destruct (import_raises env _) as [e1|] eqn:Himp; cbn.
      { exists []. repeat split; intros; simplify_eq; done || count_calls. }
      rewrite <- !app_assoc. cbn.
      destruct (download_raises env _) as [e2|] eqn:Hdl; cbn.
      { exists [Download "en_core_web_sm"].
        repeat split; intros; simplify_eq; eauto; count_calls. }
      rewrite <- !app_assoc. cbn.
      exists [Download "en_core_web_sm"; SpacyLoad "en_core_web_sm"].
      destruct (load_raises env (_ ++ [_; _; _])) as [e3|] eqn:Hload2; cbn;
        rewrite <- ?app_assoc; cbn;
        repeat split; intros; simplify_eq; eauto; count_calls.
  - by repeat split.
Qed.

Lemma load_nlp_handles_missing_model_only_witness :
  fst (load_nlp all_calls_return initial) = Ok tt ∧
  fst (load_nlp out_of_memory initial) = Raise MemoryError ∧
  loads (events (snd (load_nlp model_missing initial))) = 2.
Proof.
  split; [|split].
  - apply (load_nlp_handles_missing_model_only all_calls_return initial).
    reflexivity.
  - apply (proj1 (proj2 (load_nlp_handles_missing_model_only out_of_memory initial))
             MemoryError); reflexivity.
  - destruct (proj2 (proj2 (load_nlp_handles_missing_model_only model_missing initial))
                OSError eq_refl eq_refl)
      as (rest & Hev & _ & _ & _ & Hretry & _).
    destruct (Hretry eq_refl eq_refl) as [-> _].
    rewrite Hev. reflexivity.
Defined.

(** ** How many pipeline objects the script holds *)

Section Preservation.

Context {S : Type} (I : S → Prop).

Lemma preserves_ret {A} (a : A) : preserves I (ret a).
Proof. by intros s. Qed.

Lemma preserves_bind {A B} (m : M S A) (k : A → M S B) :
  preserves I m → (∀ a, preserves I (k a)) → preserves I (bind m k).
Proof.
  intros Hm Hk s Hs. unfold bind. specialize (Hm s Hs).
  destruct (m s) as [[a|e] s']; cbn in *; [by apply Hk|done].
Qed.

Lemma preserves_try_except {A} (body handler : M S A) cls :
  preserves I body → preserves I handler →
  preserves I (try_except body cls handler).
Proof.
  intros Hb Hh s Hs. unfold try_except. specialize (Hb s Hs).
  destruct (body s) as [[a|e] s']; cbn in *; [done|].
  destruct (issubclass e cls); [by apply Hh|done].
Qed.

End Preservation.

Lemma run_invariant (I : world → Prop) (prog : list (M world unit)) :
  Forall (preserves I) prog → ∀ w, I w → Forall I (run prog w).
Proof.
  induction 1 as [|stmt prog Hstmt _ IH]; intros w Hw; cbn; [constructor|].
  specialize (Hstmt w Hw).
  destruct (stmt w) as [[[]|e] w']; cbn in *.
  - constructor; [done|by apply IH].
  - by constructor.
Qed.

Section ScriptSteps.

Variable env : Env.

Lemma preserves_external e raises :
  preserves binds_pipeline_names (external e raises).
Proof. intros w Hw. unfold external. by destruct (raises (events w)). Qed.

Lemma preserves_spacy_load name :
  preserves binds_pipeline_names (spacy_load env name).
Proof.
  apply preserves_bind; [apply preserves_external|]. by intros _ w Hw.
Qed.

Lemma preserves_assign name obj :
  name ∈ pipeline_names → preserves binds_pipeline_names (assign name obj).
Proof.
  intros Hname w Hw. unfold binds_pipeline_names in *. cbn.
  rewrite dom_insert. apply union_subseteq.
  split; [by apply singleton_subseteq_l|done].
Qed.

Lemma preserves_global name :
  preserves binds_pipeline_names (global name).
Proof. intros w Hw. unfold global. by destruct (globals w !! name). Qed.

Lemma preserves_update_object obj f :
  preserves binds_pipeline_names (update_object obj f).
Proof. intros w Hw. unfold update_object. by destruct (objects w !! obj). Qed.

Lemma preserves_script :
  Forall (preserves binds_pipeline_names) (script env).
Proof.
  assert (Hnlp : "nlp" ∈ pipeline_names) by (unfold pipeline_names; set_solver).
  assert (Hcustom : "custom_nlp" ∈ pipeline_names)
    by (unfold pipeline_names; set_solver).
  repeat constructor.
  - apply preserves_try_except.
    + apply preserves_bind; [apply preserves_spacy_load|intros ?].
      by apply preserves_assign.
    + apply preserves_bind; [apply preserves_external|intros _].
      apply preserves_bind; [apply preserves_external|intros _].
      apply preserves_bind; [apply preserves_spacy_load|intros ?].
      by apply preserves_assign.
  - apply preserves_external.
  - apply preserves_bind; [apply preserves_spacy_load|intros ?].
    by apply preserves_assign.
  - apply preserves_bind; [apply preserves_global|intros obj].
    intros w Hw. destruct (objects w !! obj) as [l|]; [|done].
    destruct (insert_before _ _ _); [|done].
    by apply preserves_update_object.
  - apply preserves_external.
  - apply preserves_bind; [apply preserves_spacy_load|intros ?].
    by apply preserves_assign.
  - apply preserves_external.
  - repeat (apply preserves_bind; [apply preserves_global|intros ?]).
    apply preserves_update_object.
  - apply preserves_external.
Qed.

End ScriptSteps.

Lemma length_remove_dups `{EqDecision A} (l : list A) :
  length (remove_dups l) ≤ length l.
Proof.
  induction l as [|x l IH]; cbn; [done|].
  destruct (decide_rel elem_of x l); cbn; lia.
Qed.

Lemma held_le_two (w : world) : binds_pipeline_names w → length (held w) ≤ 2.
Proof.
  intros Hw. unfold held.
  etrans; [apply length_remove_dups|].
  rewrite length_fmap, length_map_to_list, <- size_dom.
  etrans; [by apply subseteq_size|].
  unfold pipeline_names. rewrite size_union by set_solver.
  by rewrite !size_singleton.
Qed.

(** The claim that one pipeline object at most is held fails in the run in
    which every call returns: after line 75 [nlp] and [custom_nlp] hold
    two different objects. *)
Lemma one_pipeline_held_counterexample :
  ¬ (∀ w, w ∈ run (script all_calls_return) initial → length (held w) ≤ 1).
Proof.
  intros H.
  assert (Hw : ∃ w, run (script all_calls_return) initial !! 2 = Some w
                  ∧ length (held w) = 2).
  { eexists. split; [vm_compute; reflexivity|vm_compute; reflexivity]. }
  destruct Hw as (w & Hin%list_elem_of_lookup_2 & Hlen).
  specialize (H w Hin). lia.
Qed.

(** C7, amended. At every point of every run the script holds at most two
    pipeline objects, bound to the globals [nlp] and [custom_nlp] and to
    no other. In the run in which every call returns, [nlp] keeps the
    first object for the whole run, [custom_nlp] holds the second object
    from line 75 on and a third one, which replaces it, from line 120 on:
    two objects are held from line 75 to the end. *)
Theorem two_pipelines_held_at_most (env : Env) :
  Forall (λ w, length (held w) ≤ 2 ∧ dom (globals w) ⊆ pipeline_names)
    (run (script env) initial) ∧
  Forall (λ w, length (held w) = 2)
    (drop 2 (run (script all_calls_return) initial)) ∧
  (λ w, (globals w !! "nlp", globals w !! "custom_nlp"))
    <$> run (script all_calls_return) initial =
  [ (Some 0, None); (Some 0, None);
    (Some 0, Some 1); (Some 0, Some 1); (Some 0, Some 1);
    (Some 0, Some 2); (Some 0, Some 2); (Some 0, Some 2); (Some 0, Some 2) ].
Proof.
  split; [|split].
  - eapply Forall_impl.
    + apply (run_invariant binds_pipeline_names); [apply preserves_script|].
      unfold binds_pipeline_names. cbn. set_solver.
    + intros w Hw. split; [by apply held_le_two|done].
  - vm_compute. repeat constructor.
  - vm_compute. reflexivity.
Qed.


(** ** The script's functions on the samples *)

Example words_sample :
  words sample_vocab sample_tokens = [","; "never"; "mind"].
Proof. reflexivity. Qed.

Example word_freq_sample :
  word_freq sample_words =
  [("Gus", 3); ("Natural", 2); ("Language", 2); ("Processing", 2);
   ("developer", 1); ("talk", 2); ("Piano", 2); ("London", 2); ("music", 1)].
Proof. reflexivity. Qed.

Example common_words_sample :
  common_words (word_freq sample_words) =
  [("Gus", 3); ("Natural", 2); ("Language", 2); ("Processing", 2); ("talk", 2)].
Proof. reflexivity. Qed.

Example unique_words_sample :
  unique_words (word_freq sample_words) = ["developer"; "music"].
Proof. reflexivity. Qed.

Example set_custom_boundaries_sample :
  fmap (map is_sent_start)
    (docs (snd (set_custom_boundaries 0 sample_heap)) !! 0) =
  Some [None; None; None; Some true; None; None].
Proof. reflexivity. Qed.


(** * Further properties *)

(** ** The sentence-boundary component, continued *)

Lemma dep_after (c c' : list TokenC) (b : nat → bool) :
  (∀ j, c' !! j =
        if b j then with_sent_start (Some true) <$> c !! j else c !! j) →
  dep <$> c' = dep <$> c.
Proof.
  intros Hlook. apply list_eq. intros j.
  rewrite !list_lookup_fmap, Hlook.
  destruct (b j), (c !! j); done.
Qed.

Lemma follows_delimiter_after (c c' : list TokenC) (b : nat → bool) :
  (∀ j, c' !! j =
        if b j then with_sent_start (Some true) <$> c !! j else c !! j) →
  ∀ j, follows_delimiter c' j = follows_delimiter c j.
Proof.
  intros Hlook [|p]; cbn; [done|].
  rewrite Hlook. destruct (b p), (c !! p); done.
Qed.

Lemma no_delimiter_before_last (c : list TokenC) :
  (∀ k t, k + 1 < length c → c !! k = Some t → text t ≠ "...") →
  delimiter_before_last c = false.
Proof.
  intros Hno. unfold delimiter_before_last.
  destruct (existsb _ _) eqn:E; [|done].
  apply existsb_exists in E as (t & Hin & Heq).
  apply list_elem_of_In, elem_of_take in Hin as (k & Hk & Hlt).
  apply String.eqb_eq in Heq. destruct (Hno k t); [lia|done..].
Qed.

(** X1. Running the component a second time gives the same result as the
    first run and changes no document: after a run that returned, every
    token that follows a delimiter is already marked, and a run that
    raised changed nothing. *)
Theorem set_custom_boundaries_idempotent (h : heap) (doc : ref)
    (c : list TokenC) :
  docs h !! doc = Some c →
  ∃ r h1 h2,
    set_custom_boundaries doc h = (r, h1) ∧
    set_custom_boundaries doc h1 = (r, h2) ∧
    docs h2 = docs h1 ∧
    r = (if has_annotation_dep c && delimiter_before_last c
         then Raise ValueError else Ok doc).
Proof.
  intros Hd.
  destruct (set_custom_boundaries_run doc h c Hd)
    as (h1 & c1 & Hrun1 & Hdocs1 & _ & Hlook1 & _).
  assert (Hd1 : docs h1 !! doc = Some c1)
    by (rewrite Hdocs1; apply lookup_insert_eq).
  destruct (set_custom_boundaries_run doc h1 c1 Hd1)
    as (h2 & c2 & Hrun2 & Hdocs2 & _ & Hlook2 & _).
  assert (Hdep : has_annotation_dep c1 = has_annotation_dep c)
    by (eapply has_annotation_dep_fmap, dep_after, Hlook1).
  assert (Hout : outcome doc c1 = outcome doc c).
  { unfold outcome. rewrite Hdep.
    destruct (has_annotation_dep c) eqn:E; [|done].
    replace c1 with c; [done|].
    apply list_eq. intros j. by rewrite Hlook1, andb_false_r. }
  exists (outcome doc c), h1, h2.
  split; [done|]. split; [by rewrite Hrun2, Hout|]. split; [|done].
  rewrite Hdocs2. apply insert_id. rewrite Hd1. f_equal.
  apply list_eq. intros j. rewrite Hlook2, Hdep.
  rewrite (follows_delimiter_after c c1 _ Hlook1), Hlook1.
  destruct (follows_delimiter c j && negb (has_annotation_dep c)); [|done].
  by destruct (c !! j).
Qed.

Lemma set_custom_boundaries_idempotent_witness :
  (∃ r h1 h2,
    set_custom_boundaries 0 sample_heap = (r, h1) ∧
    set_custom_boundaries 0 h1 = (r, h2) ∧
    docs h2 = docs h1 ∧
    r = Ok 0) ∧
  (∃ r h1 h2,
    set_custom_boundaries 0 parsed_heap = (r, h1) ∧
    set_custom_boundaries 0 h1 = (r, h2) ∧
    docs h2 = docs h1 ∧
    r = Raise ValueError).
Proof.
  split.
  - apply (set_custom_boundaries_idempotent sample_heap 0 sample_tokens).
    reflexivity.
  - apply (set_custom_boundaries_idempotent parsed_heap 0 parsed_tokens).
    reflexivity.
Defined.

(** X2. When no token before the last one is a delimiter, the component
    leaves every document as it is; a delimiter in the last position has
    no effect. *)
Theorem set_custom_boundaries_without_delimiter (h : heap) (doc : ref)
    (c : list TokenC) :
  docs h !! doc = Some c →
  (∀ k t, k + 1 < length c → c !! k = Some t → text t ≠ "...") →
  ∃ h', set_custom_boundaries doc h = (Ok doc, h') ∧ docs h' = docs h.
Proof.
  intros Hd Hno.
  destruct (set_custom_boundaries_run doc h c Hd)
    as (h' & c' & Hrun & Hdocs & _ & Hlook & _).
  exists h'. split.
  { rewrite Hrun. unfold outcome.
    by rewrite (no_delimiter_before_last c Hno), andb_false_r. }
  rewrite Hdocs. apply insert_id. rewrite Hd. f_equal.
  apply list_eq. intros j. rewrite Hlook.
  destruct (follows_delimiter c j) eqn:E; [|done].
  destruct j as [|p]; [done|]. cbn in E.
  destruct (c !! p) as [t|] eqn:Hp; [|done].
  destruct (decide (p + 1 < length c)) as [Hlt|Hge].
  - apply String.eqb_eq in E. by destruct (Hno p t Hlt Hp).
  - rewrite (lookup_ge_None_2 c (S p)) by lia. by destruct (negb _).
Qed.

Lemma set_custom_boundaries_without_delimiter_witness :
  ∃ h',
    set_custom_boundaries 0 trailing_delimiter_heap = (Ok 0, h') ∧
    docs h' = docs trailing_delimiter_heap.
Proof.
  apply (set_custom_boundaries_without_delimiter trailing_delimiter_heap 0
           trailing_delimiter_tokens).
  - reflexivity.
  - intros [|[|k]] t Hk Ht; cbn in Hk.
    + injection Ht as <-. discriminate.
    + lia.
    + lia.
Defined.

(** X3. The component only ever sets [is_sent_start] to [True]: in the
    document that a call leaves, whether it returned or raised, a token
    has the value it had or [True], and a token that was a sentence
    start is still one. *)
Theorem set_custom_boundaries_only_marks (h : heap) (doc : ref)
    (c : list TokenC) :
  docs h !! doc = Some c →
  ∃ c',
    docs (snd (set_custom_boundaries doc h)) !! doc = Some c' ∧
    ∀ j t, c !! j = Some t →
      ∃ t', c' !! j = Some t' ∧
            (is_sent_start t' = is_sent_start t ∨ is_sent_start t' = Some true) ∧
            (is_sent_start t = Some true → is_sent_start t' = Some true).
Proof.
  intros Hd.
  destruct (set_custom_boundaries_run doc h c Hd)
    as (h' & c' & Hrun & Hdocs & _ & Hlook & _).
  exists c'. rewrite Hrun. cbn [snd].
  split; [rewrite Hdocs; apply lookup_insert_eq|].
  intros j t Ht. rewrite Hlook, Ht.
  destruct (follows_delimiter c j && negb (has_annotation_dep c)); cbn;
    eexists; (split; [done|]); auto.
Qed.

Lemma set_custom_boundaries_only_marks_witness :
  (∃ c',
    docs (snd (set_custom_boundaries 0 sample_heap)) !! 0 = Some c' ∧
    ∀ j t, sample_tokens !! j = Some t →
      ∃ t', c' !! j = Some t' ∧
            (is_sent_start t' = is_sent_start t ∨ is_sent_start t' = Some true) ∧
            (is_sent_start t = Some true → is_sent_start t' = Some true)) ∧
  (∃ c',
    docs (snd (set_custom_boundaries 0 parsed_heap)) !! 0 = Some c' ∧
    ∀ j t, parsed_tokens !! j = Some t →
      ∃ t', c' !! j = Some t' ∧
            (is_sent_start t' = is_sent_start t ∨ is_sent_start t' = Some true) ∧
            (is_sent_start t = Some true → is_sent_start t' = Some true)).
Proof.
  split.
  - apply (set_custom_boundaries_only_marks sample_heap 0 sample_tokens).
    reflexivity.
  - apply (set_custom_boundaries_only_marks parsed_heap 0 parsed_tokens).
    reflexivity.
Defined.

Lemma follows_delimiter_body_tokens k c j :
  follows_delimiter (body_tokens k c) j = follows_delimiter c j.
Proof.
  destruct j as [|p]; cbn; [done|].
  unfold body_tokens.
  destruct (c !! k) as [tk|]; [|done].
  destruct (c !! (k + 1)) as [tn|] eqn:Hn; [|done].
  destruct (String.eqb (orth tk) "..."); [|done].
  destruct (decide (p = k + 1)) as [->|Hne].
  - rewrite list_lookup_insert_eq by (by eapply lookup_lt_Some).
    by rewrite Hn.
  - by rewrite list_lookup_insert_ne.
Qed.

Lemma body_run_counts d k h c :
  docs h !! d = Some c → has_annotation_dep c = false → k + 1 < length c →
  ∃ h' new,
    set_custom_boundaries_body d k h = (Ok tt, h') ∧
    docs h' !! d = Some (body_tokens k c) ∧
    accesses h' = new ++ accesses h ∧
    text_reads new = 1 ∧
    sent_start_writes new = (if follows_delimiter c (S k) then 1 else 0).
Proof.
  intros Hd Hdep Hk.
  destruct (lookup_lt_is_Some_2 c k) as [tk Htk]; [lia|].
  destruct (lookup_lt_is_Some_2 c (k + 1)) as [tn Htn]; [lia|].
  unfold set_custom_boundaries_body, bind, doc_getitem, token_text,
    token_set_is_sent_start, ret, body_tokens.
  rewrite Hd. destruct (decide (k < length c)) as [_|]; [|lia].
  cbn. rewrite Hd, Htk, Htn. unfold text.
  destruct (String.eqb (orth tk) "...") eqn:E.
  - cbn. rewrite Hd. destruct (decide (k + 1 < length c)) as [_|]; [|lia].
    cbn. rewrite Hd, Hdep, Htn.
    exists
      (note (SetSentStart d (k + 1))
         (store_doc d (<[k + 1 := with_sent_start (Some true) tn]> c)
            (note (Visit d (k + 1)) (note (ReadText d k) (note (Visit d k) h))))),
      [SetSentStart d (k + 1); Visit d (k + 1); ReadText d k; Visit d k].
    split; [done|]. split; [apply lookup_insert_eq|done].
  - exists (note (ReadText d k) (note (Visit d k) h)),
      [ReadText d k; Visit d k].
    done.
Qed.

Lemma loop_run_counts d n : ∀ a h c,
  docs h !! d = Some c → has_annotation_dep c = false →
  (n = 0 ∨ a + n < length c) →
  ∃ h' new,
    for_each (seq a n) (set_custom_boundaries_body d) h = (Ok tt, h') ∧
    accesses h' = new ++ accesses h ∧
    text_reads new = n ∧
    sent_start_writes new =
      length (List.filter (λ j, follows_delimiter c (S j)) (seq a n)).
Proof.
  induction n as [|n IH]; intros a h c Hd Hdep Hn.
  - by exists h, [].
  - destruct Hn as [|Hn]; [done|].
    destruct (body_run_counts d a h c Hd Hdep)
      as (h1 & new1 & Hrun1 & Hd1 & Hacc1 & Hr1 & Hw1); [lia|].
    destruct (IH (S a) h1 _ Hd1) as (h2 & new2 & Hrun2 & Hacc2 & Hr2 & Hw2).
    { by rewrite has_annotation_dep_body_tokens. }
    { rewrite body_tokens_length. destruct n; [by left|right; lia]. }
    exists h2, (new2 ++ new1). cbn [seq for_each]. unfold bind at 1.
    rewrite Hrun1. split; [done|].
    split; [by rewrite Hacc2, Hacc1, app_assoc|].
    unfold text_reads, sent_start_writes in *.
    rewrite !List.filter_app, !length_app, Hr1, Hr2, Hw1, Hw2.
    split; [lia|]. cbn [List.filter].
    rewrite (List.filter_ext _ (λ j, follows_delimiter c (S j)))
      by (intros j; apply follows_delimiter_body_tokens).
    destruct (follows_delimiter c (S a)); cbn [length]; lia.
Qed.

Lemma delimiters_take (c : list TokenC) n :
  n ≤ length c →
  length (List.filter (λ j, follows_delimiter c (S j)) (seq 0 n)) =
  delimiters (take n c).
Proof.
  induction n as [|n IH]; intros Hn; [done|].
  destruct (lookup_lt_is_Some_2 c n) as [t Ht]; [lia|].
  rewrite seq_S, List.filter_app, length_app, IH by lia.
  rewrite (take_S_r c n t Ht). unfold delimiters.
  rewrite List.filter_app, length_app. cbn. rewrite Ht.
  by destruct (String.eqb (text t) "...").
Qed.

(** X4. On a document without a dependency parse the component reads the
    text of every token but the last exactly once, and assigns
    [is_sent_start] once for each delimiter among the tokens before the
    last. On a document that has a dependency parse it assigns
    nothing. *)
Theorem set_custom_boundaries_work (h : heap) (doc : ref) (c : list TokenC) :
  docs h !! doc = Some c →
  ∃ new,
    accesses (snd (set_custom_boundaries doc h)) = new ++ accesses h ∧
    (has_annotation_dep c = false →
     text_reads new = length c - 1 ∧
     sent_start_writes new = delimiters (take (length c - 1) c)) ∧
    (has_annotation_dep c = true → sent_start_writes new = 0).
Proof.
  intros Hd.
  unfold set_custom_boundaries, span_all_but_last, bind, doc_len, ret.
  rewrite Hd. cbn.
  destruct (has_annotation_dep c) eqn:Hdep.
  - destruct (loop_run_parsed doc c (length c - 1) 0 h Hd Hdep)
      as (h' & Hrun & _ & new & Hacc & _ & Hw); [lia|].
    rewrite Hrun. exists new. split.
    + by destruct (existsb _ _).
    + by split.
  - destruct (loop_run_counts doc (length c - 1) 0 h c Hd Hdep)
      as (h' & new & Hrun & Hacc & Hr & Hw); [lia|].
    rewrite Hrun. exists new. split; [done|].
    split; [|done]. intros _. by rewrite <- delimiters_take by lia.
Qed.

Lemma set_custom_boundaries_work_witness :
  (∃ new,
    accesses (snd (set_custom_boundaries 0 sample_heap)) =
      new ++ accesses sample_heap ∧
    (has_annotation_dep sample_tokens = false →
     text_reads new = length sample_tokens - 1 ∧
     sent_start_writes new =
       delimiters (take (length sample_tokens - 1) sample_tokens)) ∧
    (has_annotation_dep sample_tokens = true → sent_start_writes new = 0)) ∧
  (∃ new,
    accesses (snd (set_custom_boundaries 0 parsed_heap)) =
      new ++ accesses parsed_heap ∧
    (has_annotation_dep parsed_tokens = false →
     text_reads new = length parsed_tokens - 1 ∧
     sent_start_writes new =
       delimiters (take (length parsed_tokens - 1) parsed_tokens)) ∧
    (has_annotation_dep parsed_tokens = true → sent_start_writes new = 0)).
Proof.
  split.
  - apply (set_custom_boundaries_work sample_heap 0 sample_tokens).
    reflexivity.
  - apply (set_custom_boundaries_work parsed_heap 0 parsed_tokens).
    reflexivity.
Defined.

(** ** The frequency table, continued *)

(** X5. Every count of the frequency table is at least 1: the table has no
    entry for a word that does not occur. *)
Theorem Counter_counts_positive (token_texts : list string) :
  Forall (λ item, 1 ≤ snd item) (items (word_freq token_texts)).
Proof.
  apply Forall_forall. intros [w n] [Hw ->]%Counter_items. cbn.
  by apply occurrences_pos.
Qed.

Lemma occurrences_Permutation (l l' : list string) (w : string) :
  l ≡ₚ l' → occurrences w l = occurrences w l'.
Proof.
  induction 1 as [|x l l' _ IH|x y l|l1 l2 l3 _ IH1 _ IH2]; unfold occurrences in *; cbn.
  - done.
  - by rewrite IH.
  - by destruct (String.string_dec x w), (String.string_dec y w).
  - congruence.
Qed.

(** X6. The counts do not depend on the order of the sequence: two sequences
    with the same words in another order give tables with the same
    entries, up to the order of the entries. *)
Theorem Counter_order_independent (l l' : list string) :
  l ≡ₚ l' → items (word_freq l) ≡ₚ items (word_freq l').
Proof.
  intros Hp. unfold word_freq.
  apply NoDup_Permutation.
  - apply (NoDup_fmap_1 fst), Counter_keys_NoDup.
  - apply (NoDup_fmap_1 fst), Counter_keys_NoDup.
  - intros [w n]. rewrite !Counter_items, (occurrences_Permutation l l' w Hp).
    by rewrite Hp.
Qed.

Lemma Counter_order_independent_witness :
  items (word_freq ["talk"; "Gus"; "talk"]) ≡ₚ
  items (word_freq ["Gus"; "talk"; "talk"]).
Proof.
  apply (Counter_order_independent ["talk"; "Gus"; "talk"] ["Gus"; "talk"; "talk"]).
  apply Permutation_swap.
Defined.

Lemma dict_setitem_new (d : dict) (k : string) (v : nat) :
  dict_get d k = None → dict_setitem d k v = d ++ [(k, v)].
Proof.
  induction d as [|[k0 v0] d IH]; cbn; [done|].
  destruct (decide (k0 = k)); [done|]. intros Hget. by rewrite IH.
Qed.

(** X7. On a sequence without repetition the table lists the words in order,
    each with count 1, and the unique-words query gives the sequence
    back. *)
Theorem Counter_without_repetition (token_texts : list string) :
  NoDup token_texts →
  word_freq token_texts = (λ w, (w, 1)) <$> token_texts ∧
  unique_words (word_freq token_texts) = token_texts.
Proof.
  intros Hnd.
  assert (Hc : word_freq token_texts = (λ w, (w, 1)) <$> token_texts).
  { unfold word_freq.
    induction token_texts as [|x l IH] using rev_ind; [done|].
    apply NoDup_app in Hnd as (Hl & Hx & _).
    rewrite Counter_snoc, fmap_app. unfold count_element.
    assert (Hget : dict_get (Counter l) x = None).
    { rewrite Counter_get, decide_False; [done|].
      intros Hin. by apply (Hx x Hin), list_elem_of_here. }
    rewrite Hget, dict_setitem_new by done. by rewrite IH. }
  split; [done|]. rewrite Hc. unfold unique_words, items.
  clear. induction token_texts as [|x l IH]; cbn; [done|]. by rewrite IH.
Qed.

Lemma Counter_without_repetition_witness :
  word_freq ["Gus"; "Proto"; "Python"] =
    (λ w, (w, 1)) <$> ["Gus"; "Proto"; "Python"] ∧
  unique_words (word_freq ["Gus"; "Proto"; "Python"]) =
    ["Gus"; "Proto"; "Python"].
Proof.
  apply (Counter_without_repetition ["Gus"; "Proto"; "Python"]).
  apply (bool_decide_unpack (NoDup ["Gus"; "Proto"; "Python"])).
  vm_compute. exact I.
Defined.

Lemma StronglySorted_filter {A} (R : relation A) (f : A → bool) (l : list A) :
  StronglySorted R l → StronglySorted R (List.filter f l).
Proof.
  induction 1 as [|x l Hs IH Hx]; cbn; [constructor|].
  destruct (f x); [|done]. constructor; [done|].
  rewrite Forall_forall in Hx |- *.
  intros y Hy%list_elem_of_In%filter_In. apply Hx, list_elem_of_In, Hy.
Qed.

(** X8. The unique-words query lists the words in the order in which they
    are first seen in the sequence. *)
Theorem unique_words_first_seen_order (token_texts : list string)
    (i j : nat) (w1 w2 : string) :
  i < j →
  unique_words (word_freq token_texts) !! i = Some w1 →
  unique_words (word_freq token_texts) !! j = Some w2 →
  first_seen w1 token_texts < first_seen w2 token_texts.
Proof.
  unfold unique_words, word_freq.
  apply (StronglySorted_lookup
           (λ a b, first_seen a token_texts < first_seen b token_texts)).
  apply (StronglySorted_fmap fst
           (λ a b, first_seen (fst a) token_texts < first_seen (fst b) token_texts));
    [done|].
  apply StronglySorted_filter.
  apply (StronglySorted_fmap_inv fst
           (λ a b, first_seen a token_texts < first_seen b token_texts)).
  apply Counter_keys_first_seen.
Qed.

Lemma unique_words_first_seen_order_witness :
  first_seen "developer" sample_words < first_seen "music" sample_words.
Proof.
  apply (unique_words_first_seen_order sample_words 0 1 "developer" "music").
  - lia.
  - reflexivity.
  - reflexivity.
Defined.

(** X9. When K is at least the number of distinct words, the top-K query
    returns the whole table, reordered: no entry is lost. *)
Theorem most_common_all (token_texts : list string) (K : nat) :
  length (keys (word_freq token_texts)) ≤ K →
  most_common K (word_freq token_texts) ≡ₚ items (word_freq token_texts).
Proof.
  intros HK. unfold most_common.
  rewrite take_ge; [apply sorted_desc_Permutation|].
  rewrite (Permutation_length (sorted_desc_Permutation _)).
  unfold keys, items in *. by rewrite length_map in HK.
Qed.

Lemma most_common_all_witness :
  most_common 5 (word_freq ["talk"; "Gus"; "talk"]) ≡ₚ
  items (word_freq ["talk"; "Gus"; "talk"]).
Proof.
  apply (most_common_all ["talk"; "Gus"; "talk"] 5). vm_compute. lia.
Defined.

(** X10. The first entry of the top-K answer is a most frequent word: no word
    of the sequence occurs more often. *)
Theorem most_common_first_is_maximal (token_texts : list string) (K : nat)
    (w1 : string) (n1 : nat) :
  most_common K (word_freq token_texts) !! 0 = Some (w1, n1) →
  n1 = occurrences w1 token_texts ∧
  ∀ w, occurrences w token_texts ≤ n1.
Proof.
  unfold most_common, word_freq. intros [H0 _]%lookup_take_Some.
  pose proof (sorted_Counter_ranked token_texts) as Hs.
  pose proof (sorted_desc_Permutation (items (Counter token_texts))) as Hp.
  set (s := sorted_desc (items (Counter token_texts))) in *.
  assert (Hin : ∀ w n, (w, n) ∈ s ↔
            w ∈ token_texts ∧ n = occurrences w token_texts).
  { intros w n. rewrite Hp. apply Counter_items. }
  split; [by eapply Hin, list_elem_of_lookup_2|].
  intros w. destruct (decide (w ∈ token_texts)) as [Hw|Hw].
  - assert (Hws : (w, occurrences w token_texts) ∈ s) by by apply Hin.
    apply list_elem_of_lookup in Hws as [j Hj].
    destruct j as [|j]; [by simplify_eq|].
    assert (Hr : ranks_before token_texts (w1, n1) (w, occurrences w token_texts))
      by (eapply (StronglySorted_lookup _ s 0 (S j)); [done|lia|done..]).
    destruct Hr as [?|[? _]]; cbn in *; lia.
  - assert (occurrences w token_texts = 0); [|lia].
    destruct (occurrences w token_texts) eqn:E; [done|].
    exfalso. apply Hw, occurrences_pos. lia.
Qed.

Lemma most_common_first_is_maximal_witness :
  3 = occurrences "Gus" sample_words ∧
  ∀ w, occurrences w sample_words ≤ 3.
Proof.
  apply (most_common_first_is_maximal sample_words 5 "Gus" 3). reflexivity.
Defined.

(** ** The word lists, continued *)

Lemma words_sublist_words_all (v : Vocab) (complete_doc : list TokenC) :
  words v complete_doc `sublist_of` words_all v complete_doc.
Proof.
  unfold words, words_all.
  induction complete_doc as [|t doc IH]; cbn; [done|].
  destruct (is_punct v t); cbn.
  - by rewrite andb_false_r.
  - rewrite andb_true_r. destruct (is_stop v t); cbn.
    + by apply sublist_cons.
    + by apply sublist_skip.
Qed.

Lemma occurrences_words (v : Vocab) (complete_doc : list TokenC) (w : string) :
  occurrences w (words v complete_doc) =
  if lex_is_stop (v w) then 0 else occurrences w (words_all v complete_doc).
Proof.
  unfold words, words_all, occurrences.
  induction complete_doc as [|t doc IH]; cbn [List.filter map].
  - by destruct (lex_is_stop (v w)).
  - unfold is_punct, is_stop, text in *.
    destruct (lex_is_punct (v (orth t))); cbn [negb andb map].
    + by rewrite andb_false_r.
    + rewrite andb_true_r.
      destruct (lex_is_stop (v (orth t))) eqn:Hs; cbn [negb map];
        destruct (decide (orth t = w)) as [Heq|Hne].
      * rewrite (count_occ_cons_eq _ _ Heq). rewrite <- Heq, Hs in *. done.
      * by rewrite (count_occ_cons_neq _ _ Hne).
      * rewrite !(count_occ_cons_eq _ _ Heq), IH. rewrite <- Heq, Hs. done.
      * by rewrite !(count_occ_cons_neq _ _ Hne).
Qed.

(** X11. Leaving the stop words in changes no count: every entry of the
    frequency table of [words] is an entry of the table of [words_all],
    with the same count, and the entries that [words_all] adds are stop
    words. [words] is [words_all] with some words dropped, in the same
    order. *)
Theorem words_all_keeps_counts (v : Vocab) (complete_doc : list TokenC) :
  words v complete_doc `sublist_of` words_all v complete_doc ∧
  (∀ w n, (w, n) ∈ items (word_freq (words v complete_doc)) →
          (w, n) ∈ items (Counter (words_all v complete_doc))) ∧
  (∀ w n, (w, n) ∈ items (Counter (words_all v complete_doc)) →
          w ∉ keys (word_freq (words v complete_doc)) →
          lex_is_stop (v w) = true).
Proof.
  pose proof (words_sublist_words_all v complete_doc) as Hsub.
  split; [done|]. unfold word_freq. split.
  - intros w n [Hw ->]%Counter_items. apply Counter_items.
    split; [by eapply elem_of_sublist|].
    rewrite occurrences_words.
    apply words_elem in Hw as (t & _ & <- & Hs & _).
    unfold is_stop, text in *. by rewrite Hs.
  - intros w n [Hw ->]%Counter_items Hout.
    destruct (lex_is_stop (v w)) eqn:Hs; [done|].
    exfalso. apply Hout, Counter_keys_elem, occurrences_pos.
    rewrite occurrences_words, Hs. by apply occurrences_pos.
Qed.

(** ** The pipeline objects, continued *)

Lemma load_nlp_cases (env : Env) (w : world) :
  (fst (load_nlp env w) = Ok tt ∧
   globals (snd (load_nlp env w)) = <["nlp" := length (objects w)]> (globals w) ∧
   objects (snd (load_nlp env w)) = objects w ++ [en_core_web_sm]) ∨
  (∃ e, fst (load_nlp env w) = Raise e ∧
        globals (snd (load_nlp env w)) = globals w ∧
        objects (snd (load_nlp env w)) = objects w).
Proof.
  unfold load_nlp, try_except, spacy_load, import_download, download,
    external, bind, assign, modify, record.
  destruct (load_raises env (events w)) as [e|]; cbn; [|by left].
  destruct (issubclass e OSError); cbn; [|right; by exists e].
  destruct (import_raises env _) as [e1|]; cbn; [right; by exists e1|].
  destruct (download_raises env _) as [e2|]; cbn; [right; by exists e2|].
  destruct (load_raises env (_ ++ _)) as [e3|]; cbn;
    [right; by exists e3|by left].
Qed.

(** X12. When the guarded load returns, [nlp] is bound to one new pipeline
    object, also when the load was retried; when it raises, no global is
    bound and no object is kept. *)
Theorem load_nlp_binds_one_object (env : Env) (w : world) :
  (fst (load_nlp env w) = Ok tt →
   globals (snd (load_nlp env w)) = <["nlp" := length (objects w)]> (globals w) ∧
   objects (snd (load_nlp env w)) = objects w ++ [en_core_web_sm]) ∧
  (∀ e, fst (load_nlp env w) = Raise e →
   globals (snd (load_nlp env w)) = globals w ∧
   objects (snd (load_nlp env w)) = objects w).
Proof.
  destruct (load_nlp_cases env w) as [(Hr & Hg & Ho)|(e & Hr & Hg & Ho)];
    rewrite Hr; split; intros; simplify_eq; done.
Qed.

Lemma load_nlp_binds_one_object_witness :
  globals (snd (load_nlp model_missing initial)) = <["nlp" := 0]> ∅ ∧
  objects (snd (load_nlp model_missing initial)) = [en_core_web_sm].
Proof.
  apply (proj1 (load_nlp_binds_one_object model_missing initial)).
  reflexivity.
Defined.

(** X13. Whatever the calls raise, the guarded load calls [spacy.load] once or
    twice and [download] at most once, and it calls [download] only
    after the first load raised an [OSError]. *)
Theorem load_nlp_call_bounds (env : Env) (w : world) :
  ∃ rest,
    events (snd (load_nlp env w)) =
      events w ++ SpacyLoad "en_core_web_sm" :: rest ∧
    loads rest ≤ 1 ∧
    downloads rest ≤ 1 ∧
    (0 < downloads rest →
     ∃ e, load_raises env (events w) = Some e ∧ issubclass e OSError = true).
Proof.
  unfold load_nlp, try_except, spacy_load, import_download, download,
    external, bind, assign, modify, record.
  destruct (load_raises env (events w)) as [e|] eqn:Hload; cbn.
  - destruct (issubclass e OSError) eqn:Hsub; cbn.
    + destruct (import_raises env _) as [e1|]; cbn.
      { exists [ImportDownload]. rewrite <- app_assoc.
        split; [done|]. split; [count_calls|]. split; [count_calls|].
        intros _. by exists e. }
      destruct (download_raises env _) as [e2|]; cbn.
      { exists [ImportDownload; Download "en_core_web_sm"].
        rewrite <- !app_assoc.
        split; [done|]. split; [count_calls|]. split; [count_calls|].
        intros _. by exists e. }
      exists [ImportDownload; Download "en_core_web_sm"; SpacyLoad "en_core_web_sm"].
      destruct (load_raises env (_ ++ _)) as [e3|]; cbn; rewrite <- !app_assoc;
        (split; [done|]); (split; [count_calls|]); (split; [count_calls|]);
        intros _; by exists e.
    + exists []. split; [done|]. split; [count_calls|]. split; [count_calls|].
      unfold downloads. cbn. lia.
  - exists []. split; [done|]. split; [count_calls|]. split; [count_calls|].
    unfold downloads. cbn. lia.
Qed.

Section Untouched.

Variable env : Env.

Lemma untouched_external e raises : preserves nlp_untouched (external e raises).
Proof. intros w Hw. unfold external. by destruct (raises (events w)). Qed.

Lemma untouched_load_custom_nlp : preserves nlp_untouched (load_custom_nlp env).
Proof.
  intros w (Hnlp & Hobj & Hcustom).
  unfold load_custom_nlp, spacy_load, external, bind, assign, modify, record.
  destruct (load_raises env (events w)); cbn; [done|].
  unfold nlp_untouched. cbn.
  split; [by rewrite lookup_insert_ne|].
  split; [by rewrite lookup_app_l by (by eapply lookup_lt_Some)|].
  intros o. rewrite lookup_insert_eq. intros [= <-].
  by eapply lookup_lt_Some.
Qed.

Lemma untouched_update_custom (f : Language → Language) (w : world) (o : nat) :
  nlp_untouched w → globals w !! "custom_nlp" = Some o →
  nlp_untouched (snd (update_object o f w)).
Proof.
  intros (Hnlp & Hobj & Hcustom) Ho. unfold update_object.
  destruct (objects w !! o) as [l|]; cbn; [|done].
  unfold nlp_untouched. cbn.
  split; [done|]. split; [|done].
  rewrite list_lookup_insert_ne; [done|]. specialize (Hcustom o Ho). lia.
Qed.

Lemma untouched_add_custom_boundaries :
  preserves nlp_untouched add_custom_boundaries.
Proof.
  intros w Hw. unfold add_custom_boundaries, bind, global.
  destruct (globals w !! "custom_nlp") as [o|] eqn:Ho; [|done].
  destruct (objects w !! o) as [l|]; [|done].
  destruct (insert_before _ _ _); [|done].
  by apply untouched_update_custom.
Qed.

Lemma untouched_replace_tokenizer : preserves nlp_untouched replace_tokenizer.
Proof.
  intros w Hw. unfold replace_tokenizer, bind, global.
  destruct (globals w !! "custom_nlp") as [o|] eqn:Ho; [|done].
  destruct (globals w !! "nlp"); [|done].
  by apply untouched_update_custom.
Qed.

End Untouched.

Lemma run_cons (stmt : M world unit) (rest : list (M world unit)) (w : world) :
  run (stmt :: rest) w =
  match stmt w with
  | (Ok _, w') => w' :: run rest w'
  | (Raise _, w') => [w']
  end.
Proof. done. Qed.

(** X14. In every run, whenever [nlp] is bound it is bound to the first
    pipeline object, and that object has the components and the
    tokenizer it was loaded with: what the script does to [custom_nlp]
    (lines 76 and 132) never reaches the pipeline of [nlp]. *)
Theorem nlp_pipeline_never_modified (env : Env) :
  Forall (λ w, ∀ o, globals w !! "nlp" = Some o →
                 o = 0 ∧ objects w !! o = Some en_core_web_sm)
    (run (script env) initial).
Proof.
  cut (Forall (λ w, globals w = ∅ ∨ nlp_untouched w) (run (script env) initial)).
  { intros H. eapply Forall_impl; [exact H|].
    intros w [Hempty|(Hnlp & Hobj & _)] o Ho.
    - by rewrite Hempty in Ho.
    - by simplify_eq. }
  unfold script. rewrite run_cons.
  destruct (load_nlp_cases env initial) as [(Hr & Hg & Ho)|(e & Hr & Hg & Ho)];
    destruct (load_nlp env initial) as [r w1]; cbn [fst snd] in *; subst r.
  - assert (Hw1 : nlp_untouched w1).
    { unfold nlp_untouched. split; [by rewrite Hg, lookup_insert_eq|].
      split; [by rewrite Ho|].
      intros o. by rewrite Hg, lookup_insert_ne. }
    constructor; [by right|].
    eapply Forall_impl; [|intros w Hw; right; exact Hw].
    apply (run_invariant nlp_untouched); [|done].
    repeat (apply Forall_cons; split); try apply Forall_nil;
      first [ exact I | apply untouched_external | apply untouched_load_custom_nlp
            | apply untouched_add_custom_boundaries
            | apply untouched_replace_tokenizer ].
  - constructor; [by left|constructor].
Qed.











Example set_custom_boundaries_parsed_sample :
  fst (set_custom_boundaries 0 parsed_heap) = Raise ValueError ∧
  docs (snd (set_custom_boundaries 0 parsed_heap)) = docs parsed_heap.
Proof. split; vm_compute; reflexivity. Qed.
